(** * gup: release helper — version negotiation, message normalisation,
      identity lookup and AI refinement

    A shallow embedding of the two workflow scripts of the repository,
    [gup/__main__.py] (the current entry point) and [gup.py] (the older
    single-file script), and the properties their specification states.

    Python [str] values are sequences of Unicode code points; they are
    modelled as lists of code points so that [len], slicing, [strip] and
    [splitlines] count and classify characters the way Python does. *)

From Stdlib Require Import NArith ZArith List Lia Bool Ascii String Decimal DecimalN.
From stdpp Require Import base decidable countable gmap sets list.

Local Open Scope N_scope.

(** ** Strings *)

(** A Python [str]: a list of code points. *)
Abbreviation str := (list N).

(** An ASCII literal as a [str]. *)
Definition u (s : string) : str :=
  map N_of_ascii (list_ascii_of_string s).

Definition SPACE : N := 32.
Definition NEWLINE : N := 10.
(** U+2026 HORIZONTAL ELLIPSIS, the marker [truncate_summary] appends. *)
Definition ELLIPSIS : N := 8230.

(** [str(n)] for a non-negative integer: its decimal digits, most
    significant first, ["0"] for zero. *)
Fixpoint digits (d : Decimal.uint) : str :=
  match d with
  | Nil => []
  | D0 d' => 48 :: digits d'
  | D1 d' => 49 :: digits d'
  | D2 d' => 50 :: digits d'
  | D3 d' => 51 :: digits d'
  | D4 d' => 52 :: digits d'
  | D5 d' => 53 :: digits d'
  | D6 d' => 54 :: digits d'
  | D7 d' => 55 :: digits d'
  | D8 d' => 56 :: digits d'
  | D9 d' => 57 :: digits d'
  end.

Definition str_of_int (n : N) : str := digits (N.to_uint n).

(** [str.isspace] on one character, the class [str.strip()] removes:
    TAB..CR, FS..US, SPACE, NEL, NBSP and the Unicode space separators. *)
Definition is_space (c : N) : bool :=
  ((9 <=? c) && (c <=? 13)) || ((28 <=? c) && (c <=? 32))
  || (c =? 133) || (c =? 160) || (c =? 5760)
  || ((8192 <=? c) && (c <=? 8202))
  || (c =? 8232) || (c =? 8233) || (c =? 8239) || (c =? 8287) || (c =? 12288).

(** The line boundaries of [str.splitlines()]:
    LF, VT, FF, CR, FS, GS, RS, NEL, LS, PS. *)
Definition is_linebreak (c : N) : bool :=
  ((10 <=? c) && (c <=? 13)) || ((28 <=? c) && (c <=? 30))
  || (c =? 133) || (c =? 8232) || (c =? 8233).

(** [s.lstrip()] *)
Fixpoint lstrip (s : str) : str :=
  match s with
  | [] => []
  | c :: s' => if is_space c then lstrip s' else s
  end.

(** [s.rstrip()] *)
Fixpoint rstrip (s : str) : str :=
  match s with
  | [] => []
  | c :: s' =>
      match rstrip s' with
      | [] => if is_space c then [] else [c]
      | r => c :: r
      end
  end.

(** [s.strip()] *)
Definition strip (s : str) : str := rstrip (lstrip s).

(** [s.splitlines()]: the lines without their terminators; CR LF is one
    terminator; no empty last line after a final terminator. *)
Fixpoint splitlines (s : str) : list str :=
  match s with
  | [] => []
  | c :: s' =>
      if is_linebreak c then
        [] :: match s' with
              | c' :: s'' =>
                  if (c =? 13) && (c' =? 10) then splitlines s'' else splitlines s'
              | [] => []
              end
      else
        match splitlines s' with
        | [] => [[c]]
        | l :: ls => (c :: l) :: ls
        end
  end.

(** [sep.join(ls)] *)
Fixpoint join (sep : str) (ls : list str) : str :=
  match ls with
  | [] => []
  | [l] => l
  | l :: ls' => l ++ sep ++ join sep ls'
  end.

(** The text before the last occurrence of [c] in [s], if [c] occurs. *)
Fixpoint before_last (c : N) (s : str) : option str :=
  match s with
  | [] => None
  | x :: s' =>
      match before_last c s' with
      | Some p => Some (x :: p)
      | None => if x =? c then Some [] else None
      end
  end.

(** [s.rsplit(c, 1)]: split once, at the last occurrence of [c]. *)
Definition rsplit1 (c : N) (s : str) : list str :=
  match before_last c s with
  | Some p => [p; drop (S (length p)) s]
  | None => [s]
  end.

(** [s.split(c)] for a one-character separator. *)
Fixpoint split (c : N) (s : str) : list str :=
  match s with
  | [] => [[]]
  | x :: s' =>
      if x =? c then [] :: split c s'
      else match split c s' with
           | [] => [[x]]
           | l :: ls => (x :: l) :: ls
           end
  end.

(** The characters of [s] before its first line boundary. *)
Fixpoint line_prefix (s : str) : str :=
  match s with
  | [] => []
  | c :: s' => if is_linebreak c then [] else c :: line_prefix s'
  end.

(** The step of [splitlines] at a line boundary. *)
Definition after_linebreak (c : N) (s : str) : str :=
  match s with
  | c' :: s'' => if (c =? 13) && (c' =? 10) then s'' else s
  | [] => []
  end.

(** A text without line boundaries. *)
Abbreviation no_linebreak := (Forall (fun c => is_linebreak c = false)).

(** ** Message normalizer *)

Module Normalizer.

(** The cut both normalizers compute: the first [limit] characters,
    trimmed back to before their last space when they contain one
    ([gup/__main__.py] lines 104-106, [gup.py] lines 55-57). *)
Definition cut_at_space (s : str) (limit : nat) : str :=
  let cut := take limit s in
  if bool_decide (SPACE ∈ cut) then hd [] (rsplit1 SPACE cut) else cut.

(** [enforce_summary_limit(msg, limit=72)] ([gup/__main__.py], lines 97-108). *)
Definition enforce_summary_limit (msg : str) (limit : nat) : str :=
  let lines := splitlines (strip msg) in
  match lines with
  | [] => msg
  | s :: _ =>
      if (length s <=? limit)%nat then msg
      else
        let cut := take limit s in
        let cut := if bool_decide (SPACE ∈ cut)
                   then hd [] (rsplit1 SPACE cut) else cut in
        join [NEWLINE] (<[0%nat := cut]> lines)
  end.

(** [truncate_summary(s, limit=80)] ([gup.py], lines 51-58). *)
Definition truncate_summary (s : str) (limit : nat) : str :=
  let s := strip s in
  if (length s <=? limit)%nat then s
  else
    let cut := take limit s in
    let cut := if bool_decide (SPACE ∈ cut)
               then hd [] (rsplit1 SPACE cut) else cut in
    cut ++ [ELLIPSIS].

(** The first line of a text, as [splitlines] delimits it. *)
Definition first_line (s : str) : option str := head (splitlines s).

End Normalizer.

(** ** Version negotiator ([gup/__main__.py], lines 82-92) *)

Module Negotiator.

(** [tag_exists]: [git show-ref --tags --verify refs/tags/<tag>] succeeds
    exactly when the tag is one of the repository's tags. *)
Definition tag_exists (used : gset str) (tag : str) : bool :=
  bool_decide (tag ∈ used).

(** The f-string [f"v{major}.{minor}.{patch}"]. *)
Definition version_tag (major minor patch : N) : str :=
  u "v" ++ str_of_int major ++ u "." ++ str_of_int minor ++ u "." ++ str_of_int patch.

(** [next_free_version]: the [while True] loop, one unit of fuel per
    iteration; [None] when the fuel runs out before the loop returns. *)
Fixpoint next_free_version (used : gset str) (fuel : nat)
    (major minor patch : N) : option str :=
  match fuel with
  | O => None
  | S fuel' =>
      let candidate := version_tag major minor (patch + 1) in
      if negb (tag_exists used candidate) then Some candidate
      else next_free_version used fuel' major minor (patch + 1)
  end.

(** The candidates [patch+1 .. patch+n], in the order the loop visits them. *)
Definition candidates (major minor patch : N) (n : nat) : list str :=
  map (fun i => version_tag major minor (patch + N.of_nat (S i))) (seq 0 n).

(** The legacy script ([gup.py], lines 190-191) performs no search. *)
Definition next_version (major minor patch : N) : str :=
  version_tag major minor (patch + 1).

End Negotiator.

(** ** Python values shared by both scripts *)

(** Truthiness of a [str] or of a list: non-empty. *)
Definition truthy {A} (s : list A) : bool :=
  match s with [] => false | _ :: _ => true end.

(** [a or b] on strings. *)
Definition or_else (a b : str) : str := if truthy a then a else b.

Definition str_eqb (a b : str) : bool := bool_decide (a = b).

Fixpoint starts_with (p s : str) : bool :=
  match p, s with
  | [], _ => true
  | x :: p', y :: s' => (x =? y) && starts_with p' s'
  | _ :: _, [] => false
  end.

(** [needle in hay] *)
Fixpoint contains (needle hay : str) : bool :=
  starts_with needle hay
  || match hay with [] => false | _ :: hay' => contains needle hay' end.

(** The longest prefix of [s] whose characters satisfy [p], and the rest. *)
Fixpoint span (p : N → bool) (s : str) : str * str :=
  match s with
  | [] => ([], [])
  | c :: s' =>
      if p c then let '(a, b) := span p s' in (c :: a, b) else ([], s)
  end.

(** The parts of the Python library that depend on the Unicode character
    database, taken as given. *)
Record pylib := {
  py_lower : str → str;        (* str.lower() *)
  py_isdigit : str → bool;     (* str.isdigit() *)
  py_is_decimal : N → bool;    (* the class \d of a str pattern *)
  py_int : str → option N      (* int(s) of an unsigned literal; None: ValueError *)
}.

Definition is_ascii_digit (c : N) : bool := (48 <=? c) && (c <=? 57).

(** [int(s)] for a string of ASCII digits. *)
Definition int_ascii (s : str) : N :=
  fold_left (fun acc c => 10 * acc + (c - 48)) s 0.

(** An exception: whether it is [subprocess.TimeoutExpired], and [str(e)].
    Everything a subprocess call raises derives from [Exception]. *)
Record exn := Exn { is_timeout : bool; what : str }.

(** A computation that returns or raises. *)
Inductive result (A : Type) : Type :=
| Return (a : A)
| Raise (e : exn).
Arguments Return {A} a.
Arguments Raise {A} e.

Definition rbind {A B} (m : result A) (k : A → result B) : result B :=
  match m with Return a => k a | Raise e => Raise e end.

(** [try: body except Exception as e: handler(e)] *)
Definition try_except {A} (body : result A) (handler : exn → result A) : result A :=
  match body with Return a => Return a | Raise e => handler e end.

(** Raise [e] when the call fails, carry on otherwise. *)
Definition raising (e : option exn) : result unit :=
  match e with Some e => Raise e | None => Return tt end.

(** ** Version tags: parsing *)

(** The common scan of [v<digits>.<digits>.<digits>] at the start of [s]:
    the three digit groups and what follows them. *)
Definition scan_version (digit : N → bool) (s : str) : option (str * str * str * str) :=
  match s with
  | c :: r0 =>
      if c =? 118 then
        let '(g1, r1) := span digit r0 in
        match g1, r1 with
        | _ :: _, d1 :: r1' =>
            if d1 =? 46 then
              let '(g2, r2) := span digit r1' in
              match g2, r2 with
              | _ :: _, d2 :: r2' =>
                  if d2 =? 46 then
                    let '(g3, r3) := span digit r2' in
                    match g3 with
                    | _ :: _ => Some (g1, g2, g3, r3)
                    | [] => None
                    end
                  else None
              | _, _ => None
              end
            else None
        | _, _ => None
        end
      else None
  | [] => None
  end.

(** [semantic(tag)] ([gup.py], lines 47-49):
    [re.match(r"^v([0-9]+)\.([0-9]+)\.([0-9]+)$", tag)]; [$] also matches
    before a final newline. *)
Definition semantic (tag : str) : option (N * N * N) :=
  match scan_version is_ascii_digit tag with
  | Some (g1, g2, g3, rest) =>
      if str_eqb rest [] || str_eqb rest [NEWLINE]
      then Some (int_ascii g1, int_ascii g2, int_ascii g3)
      else None
  | None => None
  end.

(** ** The version-control collaborator *)

(** The commands a run asks the collaborator to carry out. A command
    given as an argument vector, or as a literal command line, is the git
    command it spells. [Shell] is a command line of [gup.py] that has text
    interpolated into it and is handed to [sh] as it is ([shell=True]):
    what it runs is for the shell to decide. *)
Inductive action :=
| GitFetch
| GitMergeFfOnly (upstream : str)
| GitAddAll
| GitCommit (author_name author_email message : str)
| GitTag (tag message : str)
| GitPushBranch (branch : str)
| GitPushTag (tag : str)
| GitConfigSet (global_scope : bool) (key value : str)
| Shell (command_line : str).

Record datetime := {
  year : N; month : N; day : N; hour : N; minute : N; second : N
}.

(** What the collaborator answers during one run. Every query goes
    through [safe], which strips the output and turns a failure into the
    empty string. *)
Record repo := {
  inside_work_tree : str;      (* git rev-parse --is-inside-work-tree *)
  current_branch : str;        (* git branch --show-current *)
  head_ref : str;              (* git rev-parse --abbrev-ref HEAD *)
  upstream : str;              (* git rev-parse --abbrev-ref --symbolic-full-name @{u} *)
  behind : str;                (* git rev-list --count <branch>..<upstream> *)
  rev_parse_head : str;        (* git rev-parse --verify HEAD *)
  status_porcelain : str;      (* git status --porcelain *)
  described_tag : str;         (* git describe --tags --abbrev=0 *)
  tags : gset str;             (* the tags git show-ref verifies *)
  config_user_name : str;      (* git config user.name *)
  config_user_email : str;     (* git config user.email *)
  global_user_name : str;      (* git config --global user.name *)
  global_user_email : str;     (* git config --global user.email *)
  staged_names : str;          (* git diff --cached --name-only *)
  staged_diff : str;           (* git diff --cached --unified=0 *)
  command_fails : action → bool; (* the command exits non-zero *)
  now : datetime               (* datetime.datetime.now() *)
}.

(** ** Identity resolver ([gup/__main__.py], lines 113-122) *)

Module Identity.

Definition read_identity (r : repo) : str * str * str :=
  let n := config_user_name r in
  let e := config_user_email r in
  if truthy n || truthy e then (n, e, u "repo")
  else
    let n := global_user_name r in
    let e := global_user_email r in
    if truthy n || truthy e then (n, e, u "global")
    else ([], [], u "none").

(** The configuration git reads, as maps from key to value, in the order
    in which git reads it: the system file, the global file, the file of
    the repository, the file of the worktree and the settings of the
    command's environment. A later one overrides an earlier one. *)
Record git_scopes := {
  system_file : gmap str str;
  global_file : gmap str str;
  local_file : gmap str str;
  worktree_file : gmap str str;
  command_settings : gmap str str
}.

(** The value [git config KEY] prints: the one set last. *)
Definition effective (g : git_scopes) (key : str) : option str :=
  foldl (fun found file => match file !! key with Some v => Some v | None => found end)
    None
    [system_file g; global_file g; local_file g; worktree_file g; command_settings g].

(** [safe] on the query of a key: the printed line stripped; the empty
    string when the key is not set and git exits with 1. *)
Definition safe_value (v : option str) : str :=
  match v with Some v => strip (v ++ [NEWLINE]) | None => [] end.

(** [git_config(key)]: [safe(["git", "config", key])], lines 76-77. *)
Definition git_config (g : git_scopes) (key : str) : str :=
  safe_value (effective g key).

(** [safe(["git", "config", "--global", key])], lines 118-119. *)
Definition git_config_global (g : git_scopes) (key : str) : str :=
  safe_value (global_file g !! key).

(** No file after the global one sets [key]. *)
Definition only_below_local (g : git_scopes) (key : str) : Prop :=
  local_file g !! key = None ∧ worktree_file g !! key = None
  ∧ command_settings g !! key = None.

(** The repository [r] with its four identity answers read from [g]. *)
Definition configured (g : git_scopes) (r : repo) : repo := {|
  inside_work_tree := inside_work_tree r;
  current_branch := current_branch r;
  head_ref := head_ref r;
  upstream := upstream r;
  behind := behind r;
  rev_parse_head := rev_parse_head r;
  status_porcelain := status_porcelain r;
  described_tag := described_tag r;
  tags := tags r;
  config_user_name := git_config g (u "user.name");
  config_user_email := git_config g (u "user.email");
  global_user_name := git_config_global g (u "user.name");
  global_user_email := git_config_global g (u "user.email");
  staged_names := staged_names r;
  staged_diff := staged_diff r;
  command_fails := command_fails r;
  now := now r
|}.

End Identity.

(** ** Change-summary heuristic ([gup/__main__.py], lines 287-291) *)

Module Heuristic.

Definition commit_msg (bootstrap : bool) (files : list str) : str :=
  if bootstrap then u "Initial commit"
  else if (length files =? 1)%nat then u "Update project configuration"
  else u "Update " ++ str_of_int (N.of_nat (length files)) ++ u " project files".

End Heuristic.

(** ** AI refinement request *)

(** One run of the text-generation tool, as the scripts observe it. *)
Record llm_run := {
  popen : option exn;              (* Popen raises: the tool cannot be started *)
  poll : nat → bool;               (* poll() at the i-th second: it has exited *)
  kill : option exn;               (* p.kill() raises *)
  communicate : result (str * str) (* (stdout, stderr), or the call raises *)
}.

(** The tool as a function of the model name and the prompt. *)
Definition llm := str → str → llm_run.

Module Refinement.

(** [wait_with_countdown(proc, timeout)] ([gup/__main__.py], lines 213-222);
    [elapsed] counts the polls made so far. *)
Fixpoint wait_with_countdown (p : llm_run) (elapsed remaining : nat) : bool :=
  match remaining with
  | O => false
  | S remaining' =>
      if poll p elapsed then true
      else wait_with_countdown p (S elapsed) remaining'
  end.

(** The prompt of [generate_message]. *)
Definition prompt (commit_msg diff : str) : str :=
  join [NEWLINE]
    [ u "Improve this Git commit message."; [];
      u "Rules:";
      u "- FIRST line " ++ [8804] ++ u " 72 characters.";
      u "- Do NOT invent details."; [];
      u "Current message:"; commit_msg; [];
      u "Diff:"; diff; [] ].

(** [generate_message()] ([gup/__main__.py], lines 293-328), a closure over
    the draft [commit_msg], the chosen model and the timeout. It returns
    the message and the warning ([None] on success). *)
Definition generate_message (tool : llm) (r : repo) (model_id : str)
    (timeout : nat) (commit_msg : str) : result (str * option str) :=
  let diff := take (N.to_nat 15000) (staged_diff r) in
  let p := tool model_id (prompt commit_msg diff) in
  try_except
    (rbind (raising (popen p)) (fun _ =>
     let completed := wait_with_countdown p 0 timeout in
     if negb completed then
       rbind (raising (kill p)) (fun _ =>
       Return (commit_msg, Some (u "AI request timed out")))
     else
       rbind (communicate p) (fun '(out, err) =>
       if truthy (strip out) then
         Return (Normalizer.enforce_summary_limit (strip out) 72, None)
       else
         Return (commit_msg, Some (or_else (strip err) (u "AI returned empty output"))))))
    (fun e => Return (commit_msg, Some (what e))).

End Refinement.

(** The older script, [gup.py]. *)
Module LegacyRefinement.

Definition DEBUG_AI : bool := true.

(** U+26A0 U+FE0F, the sign the warnings start with. *)
Definition WARNING_SIGN : str := [9888; 65039].

Definition prompt (diff : str) : str :=
  join [NEWLINE]
    [ [];
      u "You are a precise engineer. Follow the required format."; [];
      u "Output EXACTLY in this structure:"; [];
      u "<One-line summary (<120 chars)>"; [];
      u "### Changes";
      u "- concise bullet";
      u "- concise bullet"; [];
      u "### Rationale";
      u "Sentence explaining intent OR:";
      u "Rationale: Not assessable from diff."; [];
      u "NEVER include file names.";
      u "NEVER fabricate information."; [];
      u "Diff:"; diff; [] ].

(** [generate_ai_commit_message(model, diff)] ([gup.py], lines 86-139):
    the warnings it prints and the message it returns ([None]: no message). *)
Definition generate_ai_commit_message (lib : pylib) (tool : llm)
    (model diff : str) : result (list str * option str) :=
  let p := tool model (prompt diff) in
  try_except
    (rbind (raising (popen p)) (fun _ =>
     rbind (communicate p) (fun '(out, errout) =>
     let w := if DEBUG_AI && truthy errout
              then [u "[AI stderr] " ++ errout] else [] in
     if negb (truthy out) || (length (strip out) <? 10)%nat then
       Return (w ++ [WARNING_SIGN ++ u " AI returned empty or too-small output."], None)
     else
       let lower := py_lower lib out in
       if contains (u "what would you like me to") lower
          || contains (u "please provide me") lower then
         Return (w ++ [WARNING_SIGN ++ u " Model refused structured prompt."], None)
       else Return (w, Some (strip out)))))
    (fun e =>
       if is_timeout e then Return ([WARNING_SIGN ++ u " AI timeout."], None)
       else Return ([WARNING_SIGN ++ u " AI failure: " ++ what e], None)).

End LegacyRefinement.

(** ** The commit trailer *)

(** [s.zfill(width)] for a digit string. *)
Definition zfill (width : nat) (s : str) : str :=
  replicate (width - length s) 48 ++ s.

(** [strftime("%Y-%m-%d %H:%M:%S")]: the fields in decimal, padded with
    zeros to their width. *)
Definition strftime (t : datetime) : str :=
  zfill 4 (str_of_int (year t)) ++ u "-" ++ zfill 2 (str_of_int (month t))
  ++ u "-" ++ zfill 2 (str_of_int (day t)) ++ u " "
  ++ zfill 2 (str_of_int (hour t)) ++ u ":" ++ zfill 2 (str_of_int (minute t))
  ++ u ":" ++ zfill 2 (str_of_int (second t)).

(** The ranges the fields of a [datetime] are kept in, for a year of four
    digits. *)
Definition valid_datetime (t : datetime) : bool :=
  (1000 <=? year t) && (year t <=? 9999) && (1 <=? month t) && (month t <=? 12)
  && (1 <=? day t) && (day t <=? 31) && (hour t <=? 23)
  && (minute t <=? 59) && (second t <=? 59).

(** The shape [YYYY-MM-DD HH:MM:SS]. *)
Definition timestamp_shape (s : str) : bool :=
  match s with
  | [y1; y2; y3; y4; a; m1; m2; b; d1; d2; c; h1; h2; e; i1; i2; f; s1; s2] =>
      forallb is_ascii_digit [y1; y2; y3; y4; m1; m2; d1; d2; h1; h2; i1; i2; s1; s2]
      && (a =? 45) && (b =? 45) && (c =? 32) && (e =? 58) && (f =? 58)
  | _ => false
  end.

(** [s] is [w] ASCII digits. *)
Definition digits_of_width (w : nat) (s : str) : bool :=
  (length s =? w)%nat && forallb is_ascii_digit s.

Module Trailer.

(** [final_msg] of [gup/__main__.py], lines 389-394. *)
Definition final_msg (commit_msg next_version ts : str) : str :=
  commit_msg ++ [NEWLINE; NEWLINE]
  ++ u "Version: " ++ next_version ++ [NEWLINE]
  ++ u "Timestamp: " ++ ts ++ [NEWLINE].

(** [final_msg] of [gup.py], lines 235-241; U+2014 is the dash. *)
Definition legacy_final_msg (commit_msg title next_version timestamp : str) : str :=
  u "Version: " ++ next_version ++ u " " ++ [8212] ++ u " " ++ title ++ [NEWLINE]
  ++ u "Timestamp: " ++ timestamp ++ [NEWLINE; NEWLINE]
  ++ commit_msg ++ [NEWLINE].

(** [summary] and [title] of [gup.py], lines 229-230. *)
Definition legacy_title (commit_msg : str) : str :=
  let summary := or_else (strip (hd [] (split NEWLINE commit_msg))) (u "update") in
  Normalizer.truncate_summary summary 80.

End Trailer.

(** ** The orchestrators *)

(** The state a run threads: the lines still to be read from standard
    input and the commands that have succeeded so far. *)
Record io := { stdin : list str; trace : list action }.

(** How a step ends: it goes on with a value, the process exits with a
    code ([sys.exit]), or an exception nobody catches ends it. *)
Inductive outcome (A : Type) : Type :=
| Cont (a : A) (s : io)
| Exited (code : Z) (s : io)
| Uncaught (e : exn) (s : io).
Arguments Cont {A} a s.
Arguments Exited {A} code s.
Arguments Uncaught {A} e s.

Definition prog (A : Type) : Type := io → outcome A.

Definition ret {A} (a : A) : prog A := fun s => Cont a s.

Definition bind {A B} (m : prog A) (k : A → prog B) : prog B :=
  fun s =>
    match m s with
    | Cont a s' => k a s'
    | Exited code s' => Exited code s'
    | Uncaught e s' => Uncaught e s'
    end.

Notation "'let!' x ':=' m 'in' k" := (bind m (fun x => k))
  (at level 10, x pattern, m at level 100, k at level 200).
Notation "'do!' m 'in' k" := (bind m (fun _ => k))
  (at level 10, m at level 100, k at level 200).

Definition sys_exit {A} (code : Z) : prog A := fun s => Exited code s.

Definition raise {A} (e : exn) : prog A := fun s => Uncaught e s.

Definition EOFError : exn := Exn false (u "EOF when reading a line").
Definition CalledProcessError : exn := Exn false (u "Command returned non-zero exit status").
Definition ValueError : exn := Exn false (u "invalid literal for int()").

(** [input(...)]: the next line of standard input. *)
Definition input : prog str :=
  fun s =>
    match stdin s with
    | [] => Uncaught EOFError s
    | l :: rest => Cont l {| stdin := rest; trace := trace s |}
    end.

(** [run(cmd)] / [subprocess.check_call(cmd)]: the command is carried out,
    or [CalledProcessError] is raised. *)
Definition run (r : repo) (a : action) : prog unit :=
  fun s =>
    if command_fails r a then Uncaught CalledProcessError s
    else Cont tt {| stdin := stdin s; trace := trace s ++ [a] |}.

(** [try: m except Exception: sys.exit(code)] *)
Definition except_exit {A} (m : prog A) (code : Z) : prog A :=
  fun s =>
    match m s with
    | Uncaught _ s' => Exited code s'
    | o => o
    end.

(** [int(s)], raising [ValueError]. *)
Definition int_or_raise (lib : pylib) (s : str) : prog N :=
  match py_int lib s with Some n => ret n | None => raise ValueError end.

Definition has_commits (r : repo) : bool := truthy (rev_parse_head r).

Definition start (inputs : list str) : io := {| stdin := inputs; trace := [] |}.

Definition final_state {A} (o : outcome A) : io :=
  match o with Cont _ s | Exited _ s | Uncaught _ s => s end.

(** The commands that release something: a commit, a tag or a push. A
    command line handed to the shell counts as one, since the text
    interpolated into it decides what it runs. *)
Definition releases (a : action) : bool :=
  match a with
  | GitCommit _ _ _ | GitTag _ _ | GitPushBranch _ | GitPushTag _ => true
  | Shell _ => true
  | _ => false
  end.

(** [m] keeps the property [P] of the state, however it ends. *)
Definition preserves {A} (P : io → Prop) (m : prog A) : Prop :=
  ∀ s, P s → P (final_state (m s)).

(** Properties of the trace alone. *)
Definition trace_all (Q : action → bool) (s : io) : Prop :=
  Forall (fun a => Q a = true) (trace s).

Definition no_release (a : action) : bool := negb (releases a).
Definition no_staging (a : action) : bool :=
  match a with GitAddAll => false | _ => true end.

(** [m] exits only with one of [codes]. *)
Definition exits_within {A} (codes : list Z) (m : prog A) : Prop :=
  ∀ s code s', m s = Exited code s' → code ∈ codes.

(** *** [gup/__main__.py] *)

Module Main.

(** What [main] knows when drafting starts. *)
Record session := {
  bootstrap : bool;
  next_version : option str;
  name : str;
  email : str;
  source : str;
  files : list str
}.

(** [prompt_identity(n, e)], lines 124-129. *)
Definition prompt_identity (n e : str) : prog (str * str) :=
  let! a := input in
  let! b := input in
  ret (or_else (strip a) n, or_else (strip b) e).

(** Lines 228-230. *)
Definition check_repository (r : repo) : prog unit :=
  if negb (str_eqb (inside_work_tree r) (u "true")) then sys_exit 1 else ret tt.

(** Lines 232-252: bring the local branch up to date. *)
Definition sync_branch (lib : pylib) (r : repo) : prog unit :=
  if truthy (current_branch r) && truthy (upstream r) then
    do! run r GitFetch in
    if py_isdigit lib (behind r) then
      let! n := int_or_raise lib (behind r) in
      if 0 <? n then
        let! c := input in
        if str_eqb (py_lower lib (strip c)) (u "y") then
          except_exit (run r (GitMergeFfOnly (upstream r))) 1
        else sys_exit 1
      else ret tt
    else ret tt
  else ret tt.

(** Lines 261-263: the latest version, [(0, 0, 0)] when none parses. *)
Definition latest_version (lib : pylib) (r : repo) (bootstrap : bool) : prog (N * N * N) :=
  let last := if bootstrap then u "v0.0.0"
              else or_else (described_tag r) (u "v0.0.0") in
  match scan_version (py_is_decimal lib) last with
  | Some (g1, g2, g3, _) =>
      let! major := int_or_raise lib g1 in
      let! minor := int_or_raise lib g2 in
      let! patch := int_or_raise lib g3 in
      ret (major, minor, patch)
  | None => ret (0, 0, 0)
  end.

(** Lines 266-269. *)
Definition resolve_identity (r : repo) : prog (str * str * str) :=
  let '(name, email, source) := Identity.read_identity r in
  if str_eqb source (u "none") then
    let! (name, email) := prompt_identity [] [] in
    ret (name, email, u "prompted")
  else ret (name, email, source).

(** Lines 271-276: stage everything; leave when nothing is staged. *)
Definition stage (r : repo) : prog (list str) :=
  do! run r GitAddAll in
  let files := splitlines (staged_names r) in
  if negb (truthy files) then sys_exit 0 else ret files.

(** [main], lines 228-269: the part before the staging step. *)
Definition main_before_staging (lib : pylib) (r : repo)
    : prog (bool * option str * (str * str * str)) :=
  do! check_repository r in
  do! sync_branch lib r in
  let bootstrap := negb (has_commits r) in
  if negb bootstrap && negb (truthy (status_porcelain r)) then sys_exit 0
  else
    let! (major, minor, patch) := latest_version lib r bootstrap in
    let next_version :=
      Negotiator.next_free_version (tags r) (S (size (tags r))) major minor patch in
    let! identity := resolve_identity r in
    ret (bootstrap, next_version, identity).

(** [main], lines 228-276: everything up to the staging guard. *)
Definition main_until_staged (lib : pylib) (r : repo) : prog session :=
  let! (bootstrap, next_version, (name, email, source)) := main_before_staging lib r in
  let! files := stage r in
  ret {| bootstrap := bootstrap; next_version := next_version;
         name := name; email := email; source := source; files := files |}.

(** [main], lines 381-401: the commit step. *)
Definition commit_and_push (r : repo) (name email commit_msg next_version : str) : prog unit :=
  let ts := strftime (now r) in
  let final_msg := Trailer.final_msg commit_msg next_version ts in
  do! run r (GitCommit name email final_msg) in
  do! run r (GitTag next_version final_msg) in
  let branch := or_else (current_branch r) (u "main") in
  do! run r (GitPushBranch branch) in
  run r (GitPushTag next_version).

End Main.

(** *** [gup.py] *)

Module Script.

(** The double quote. *)
Definition QUOTE : N := 34.

(** [f'git config --global {key} "{value}"'], lines 77-78. *)
Definition config_command (key value : str) : str :=
  u "git config --global " ++ key ++ u " " ++ [QUOTE] ++ value ++ [QUOTE].

(** [f'git tag -a {next_version} -m "{final_msg}"'], line 259. *)
Definition tag_command (next_version final_msg : str) : str :=
  u "git tag -a " ++ next_version ++ u " -m " ++ [QUOTE] ++ final_msg ++ [QUOTE].

(** [f"git push -u origin {branch}"], lines 171 and 262. *)
Definition push_command (branch : str) : str :=
  u "git push -u origin " ++ branch.

(** [ensure_identity()], lines 60-81. *)
Definition ensure_identity (lib : pylib) (r : repo) : prog (str * str) :=
  let name := global_user_name r in
  let email := global_user_email r in
  if truthy name && truthy email then ret (name, email)
  else
    let! a := input in
    let! b := input in
    let name := strip a in
    let email := strip b in
    if negb (truthy name) || negb (truthy email) then sys_exit 4
    else
      let! c := input in
      let save := py_lower lib (strip c) in
      do! (if str_eqb save (u "y") then
             do! run r (Shell (config_command (u "user.name") name)) in
             run r (Shell (config_command (u "user.email") email))
           else ret tt) in
      ret (name, email).

(** Lines 144-147. *)
Definition check_repository (r : repo) : prog unit :=
  if negb (str_eqb (inside_work_tree r) (u "true")) then sys_exit 1 else ret tt.

(** Lines 152-180: the latest tag, creating [v0.1.0] when there is none. *)
Definition latest_tag (lib : pylib) (r : repo) : prog str :=
  if negb (has_commits r) then
    let! (author_name, author_email) := ensure_identity lib r in
    do! run r GitAddAll in
    do! run r (GitCommit author_name author_email (u "Initial commit")) in
    do! run r (GitTag (u "v0.1.0") (u "Initial version tag")) in
    let branch := or_else (head_ref r) (u "main") in
    do! run r (Shell (push_command branch)) in
    do! run r (GitPushTag (u "v0.1.0")) in
    ret (u "v0.1.0")
  else
    let last_tag := described_tag r in
    if negb (truthy last_tag) then
      do! run r (GitTag (u "v0.1.0") (u "Initial version tag")) in
      do! run r (GitPushTag (u "v0.1.0")) in
      ret (u "v0.1.0")
    else ret last_tag.

(** Lines 196-200: stage everything; exit when nothing is staged. *)
Definition stage (r : repo) : prog str :=
  do! run r GitAddAll in
  let changed := staged_names r in
  if negb (truthy changed) then sys_exit 3 else ret changed.

(** The script, lines 144-200: everything up to the staging guard; it goes
    on with the next version and the staged names. *)
Definition script_until_staged (lib : pylib) (r : repo) : prog (str * str) :=
  do! check_repository r in
  let! last_tag := latest_tag lib r in
  match semantic last_tag with
  | None => sys_exit 2
  | Some (major, minor, patch) =>
      let next_version := Negotiator.next_version major minor patch in
      let! changed := stage r in
      ret (next_version, changed)
  end.

(** The script, lines 235-263: the commit step. The commit is an argument
    vector; the tag and the push of the branch are command lines for the
    shell; the version pushed last is [v] and three decimal numbers, which
    the shell hands on as they are. *)
Definition commit_and_push (lib : pylib) (r : repo) (commit_msg next_version : str) : prog unit :=
  let title := Trailer.legacy_title commit_msg in
  let timestamp := strftime (now r) in
  let final_msg := Trailer.legacy_final_msg commit_msg title next_version timestamp in
  let! (author_name, author_email) := ensure_identity lib r in
  do! run r (GitCommit author_name author_email final_msg) in
  do! run r (Shell (tag_command next_version final_msg)) in
  let branch := or_else (head_ref r) (u "main") in
  do! run r (Shell (push_command branch)) in
  run r (GitPushTag next_version).

End Script.

(** A non-empty group of ASCII digits. *)
Definition digit_group (g : str) : Prop :=
  g ≠ [] ∧ Forall (fun c => is_ascii_digit c = true) g.

(** ** Model listing and selection ([gup/__main__.py], lines 60-68, 180-208) *)

Module Models.

(** [c in string.printable]: the ASCII characters SPACE..TILDE and the
    whitespace TAB..CR. *)
Definition in_printable (c : N) : bool :=
  ((32 <=? c) && (c <=? 126)) || ((9 <=? c) && (c <=? 13)).

(** [is_printable_no_space(s)], as its callers test it. *)
Definition is_printable_no_space (s : str) : bool :=
  truthy s && forallb (fun c => in_printable c && negb (is_space c)) s.

(** [clamp_timeout(val, default="12")]; [int_of] is [int] on a string
    ([None]: it raises). *)
Definition clamp_timeout (int_of : str → option Z) (val default : str) : str :=
  match int_of val with
  | Some t => str_of_int (Z.to_N (Z.min 60 (Z.max 1 t)))
  | None => default
  end.

(** [s.split(c, 1)]: split once, at the first occurrence of [c]. *)
Fixpoint split_once (c : N) (s : str) : list str :=
  match s with
  | [] => [[]]
  | x :: s' =>
      if x =? c then [[]; s']
      else match split_once c s' with
           | l :: ls => (x :: l) :: ls
           | [] => [[x]]
           end
  end.

(** [s.endswith(c)] for one character. *)
Definition ends_with (c : N) (s : str) : bool :=
  match last s with Some x => x =? c | None => false end.

(** An entry of the model list: the dictionary with the keys ["id"] and
    ["label"]. *)
Record model := { model_id : str; model_label : str }.

(** The body of the loop of [list_llm_models], for one line of the output. *)
Definition parse_model_line (line : str) : list model :=
  let line := strip line in
  if negb (truthy line) || ends_with 58 line then []
  else
    let label := line in
    let core := strip (hd [] (split_once 40 line)) in
    let model_id := strip (default [] (last (split 58 core))) in
    if is_printable_no_space model_id
    then [{| model_id := model_id; model_label := label |}]
    else [].

(** [list_llm_models()], on the output of [llm models]. *)
Definition list_llm_models (out : str) : list model :=
  flat_map parse_model_line (splitlines out).

Definition IndexError : exn := Exn false (u "list index out of range").

(** [l[i]] with Python's negative indices. *)
Definition py_index {A} (l : list A) (i : Z) : option A :=
  if (0 <=? i)%Z then l !! Z.to_nat i
  else if (- Z.of_nat (length l) <=? i)%Z
       then l !! Z.to_nat (Z.of_nat (length l) + i)
       else None.

Definition index_or_raise {A} (l : list A) (i : Z) : prog A :=
  match py_index l i with Some a => ret a | None => raise IndexError end.

Definition int_z_or_raise (int_of : str → option Z) (s : str) : prog Z :=
  match int_of s with Some n => ret n | None => raise ValueError end.

(** [pick_model(models)], lines 194-208. *)
Definition pick_model (lib : pylib) (int_of : str → option Z)
    (models : list model) : prog model :=
  let! c := input in
  let c := strip c in
  if str_eqb c (u "3") then
    let! sel := input in
    let sel := strip sel in
    let! n := int_z_or_raise int_of sel in
    index_or_raise models (n - 1)
  else if py_isdigit lib c then
    let! n := int_z_or_raise int_of c in
    if (n =? 1)%Z || (n =? 2)%Z then index_or_raise models (n - 1)
    else index_or_raise models 0
  else index_or_raise models 0.

End Models.

(** ** The review loop and the whole of [main] ([gup/__main__.py], lines 278-403) *)

Module Review.
Import Models.

(** What the tools answer besides the repository: [llm models],
    [git config gup.model] and [git config gup.timeout]. *)
Record tooling := {
  llm_models_output : str;
  gup_model : str;
  gup_timeout : str
}.

(** The variables of [main] the review loop changes; [calls] counts the
    runs of the text-generation tool so far. *)
Record draft := {
  name : str;
  email : str;
  source : str;
  commit_msg : str;
  chosen : model;
  timeout : str;
  calls : nat
}.

(** [sys.stdin.read()]: everything up to the end of the input. *)
Definition read_all : prog str :=
  fun s =>
    Cont (concat (map (fun l => l ++ [NEWLINE]) (stdin s)))
         {| stdin := []; trace := trace s |}.

(** [git_config_set(key, value)] *)
Definition git_config_set (r : repo) (key value : str) : prog unit :=
  run r (GitConfigSet false key value).

(** Lines 282-285: the configured model, or the one the user picks. *)
Definition select_model (lib : pylib) (int_of : str → option Z) (r : repo)
    (cfg : tooling) (models : list model) : prog model :=
  match find (fun m => str_eqb (model_id m) (gup_model cfg)) models with
  | Some m => ret m
  | None =>
      let! m := pick_model lib int_of models in
      do! git_config_set r (u "gup.model") (model_id m) in
      ret m
  end.

(** [commit_msg, ai_warning = generate_message()]: the [calls]-th run of
    the tool; [int(timeout)] reads the decimal that [clamp_timeout]
    returned. *)
Definition generate (tools : nat → llm) (r : repo) (d : draft) : prog draft :=
  fun s =>
    match Refinement.generate_message (tools (calls d)) r (model_id (chosen d))
            (N.to_nat (int_ascii (timeout d))) (commit_msg d) with
    | Return (msg, _) =>
        Cont {| name := name d; email := email d; source := source d;
                commit_msg := msg; chosen := chosen d; timeout := timeout d;
                calls := S (calls d) |} s
    | Raise e => Uncaught e s
    end.

(** Choice 2, lines 362-366. *)
Definition edit_identity (r : repo) (d : draft) : prog draft :=
  let! (n, e) := Main.prompt_identity (name d) (email d) in
  do! git_config_set r (u "user.name") n in
  do! git_config_set r (u "user.email") e in
  ret {| name := n; email := e; source := u "repo";
         commit_msg := commit_msg d; chosen := chosen d; timeout := timeout d;
         calls := calls d |}.

(** Choice 3, lines 367-369. *)
Definition edit_message (d : draft) : prog draft :=
  let! text := read_all in
  ret {| name := name d; email := email d; source := source d;
         commit_msg := Normalizer.enforce_summary_limit (strip text) 72;
         chosen := chosen d; timeout := timeout d; calls := calls d |}.

(** Choice 4, lines 370-377. *)
Definition change_model (lib : pylib) (int_of : str → option Z)
    (tools : nat → llm) (r : repo) (models : list model) (d : draft) : prog draft :=
  let! m := pick_model lib int_of models in
  do! git_config_set r (u "gup.model") (model_id m) in
  let! answer := input in
  let timeout' := clamp_timeout int_of (or_else answer (timeout d)) (u "12") in
  do! git_config_set r (u "gup.timeout") timeout' in
  generate tools r
    {| name := name d; email := email d; source := source d;
       commit_msg := commit_msg d; chosen := m; timeout := timeout';
       calls := calls d |}.

(** The [while True] loop, lines 337-379, one unit of fuel per iteration;
    [None] when the fuel runs out before the loop is left. *)
Fixpoint review (fuel : nat) (lib : pylib) (int_of : str → option Z)
    (tools : nat → llm) (r : repo) (models : list model) (d : draft)
    : prog (option draft) :=
  match fuel with
  | O => ret None
  | S fuel' =>
      let! c := input in
      let c := strip c in
      if str_eqb c (u "1") then ret (Some d)
      else
        let! d := (if str_eqb c (u "2") then edit_identity r d else ret d) in
        let! d := (if str_eqb c (u "3") then edit_message d else ret d) in
        let! d := (if str_eqb c (u "4")
                   then change_model lib int_of tools r models d else ret d) in
        do! (if str_eqb c (u "5") then sys_exit 0 else ret tt) in
        review fuel' lib int_of tools r models d
  end.

(** [main] up to the end of the review: the draft to commit and the
    version to release ([None]: a loop ran out of fuel). *)
Definition main_until_reviewed (lib : pylib) (int_of : str → option Z)
    (tools : nat → llm) (cfg : tooling) (r : repo) : prog (option (draft * str)) :=
  let! sess := Main.main_until_staged lib r in
  let models := list_llm_models (llm_models_output cfg) in
  let timeout := clamp_timeout int_of (gup_timeout cfg) (u "12") in
  let! m := select_model lib int_of r cfg models in
  let commit_msg := Heuristic.commit_msg (Main.bootstrap sess) (Main.files sess) in
  let! d := generate tools r
              {| name := Main.name sess; email := Main.email sess;
                 source := Main.source sess; commit_msg := commit_msg;
                 chosen := m; timeout := timeout; calls := 0 |} in
  let! reviewed := (fun s => review (S (length (stdin s))) lib int_of tools r models d s) in
  match reviewed, Main.next_version sess with
  | Some d, Some v => ret (Some (d, v))
  | _, _ => ret None
  end.

(** [main()], lines 227-403. *)
Definition main (lib : pylib) (int_of : str → option Z)
    (tools : nat → llm) (cfg : tooling) (r : repo) : prog (option unit) :=
  let! reviewed := main_until_reviewed lib int_of tools cfg r in
  match reviewed with
  | Some (d, v) =>
      do! Main.commit_and_push r (name d) (email d) (commit_msg d) v in
      ret (Some tt)
  | None => ret None
  end.

(** [m], started in [s], returns only with [R] established. *)
Definition on_return {A} (m : prog A) (s : io) (R : A → io → Prop) : Prop :=
  match m s with Cont a s' => R a s' | _ => True end.

(** How a call of [pick_model] started in [s] can end: with a listed model,
    or with one of three exceptions; it reads input and runs no command. *)
Definition picked (models : list model) (s : io) (o : outcome model) : Prop :=
  match o with
  | Cont m s' =>
      m ∈ models ∧ trace s' = trace s
      ∧ (length (stdin s') < length (stdin s))%nat
  | Exited _ _ => False
  | Uncaught e s' =>
      (e = EOFError ∨ e = ValueError ∨ e = IndexError) ∧ trace s' = trace s
  end.

(** The draft uses a listed model and a timeout of 1 to 60 seconds. *)
Definition well_formed (models : list model) (d : draft) : Prop :=
  chosen d ∈ models ∧ ∃ n, 1 <= n <= 60 ∧ timeout d = str_of_int n.

(** A run ended as the program does, with a result, an exit or an
    exception, and not because a loop of the model ran out of fuel. *)
Definition finished {A} (o : outcome (option A)) : bool :=
  match o with Cont None _ => false | _ => true end.

End Review.

(** ** The rest of [gup.py] (lines 202-265) *)

Module ScriptRun.

Definition DEFAULT_MODEL : str := u "gpt-4o-mini".

(** Lines 202-204: the staged diff, cut to 18000 characters. *)
Definition truncated_diff (r : repo) : str :=
  let diff := staged_diff r in
  if (N.to_nat 18000 <? length diff)%nat
  then take (N.to_nat 18000) diff
       ++ [NEWLINE] ++ u "..." ++ [NEWLINE] ++ u "[diff truncated]"
  else diff.

(** One call of [generate_ai_commit_message]. *)
Definition ai_call (lib : pylib) (tool : llm) (model diff : str) : prog (option str) :=
  fun s =>
    match LegacyRefinement.generate_ai_commit_message lib tool model diff with
    | Return (_, m) => Cont m s
    | Raise e => Uncaught e s
    end.

(** Lines 209-227: the model and the commit message, from the tool, from
    one retry with a shorter diff, or typed in. *)
Definition draft (lib : pylib) (tools : nat → llm) (r : repo) : prog (str * str) :=
  let diff := truncated_diff r in
  let! answer := input in
  let model_choice := strip answer in
  let model := if truthy model_choice then model_choice else DEFAULT_MODEL in
  let! commit_msg := ai_call lib (tools 0%nat) model diff in
  let! commit_msg :=
    match commit_msg with
    | None => ai_call lib (tools 1%nat) model
                (u "CHANGES:" ++ [NEWLINE] ++ take (N.to_nat 5000) diff)
    | Some _ => ret commit_msg
    end in
  let! commit_msg :=
    match commit_msg with
    | None => let! typed := input in ret (or_else (strip typed) (u "update"))
    | Some m => ret m
    end in
  ret (model, commit_msg).

(** The script, lines 144-265. *)
Definition script (lib : pylib) (tools : nat → llm) (r : repo) : prog unit :=
  let! staged := Script.script_until_staged lib r in
  let! drafted := draft lib tools r in
  Script.commit_and_push lib r (snd drafted) (fst staged).

End ScriptRun.

(** ** Sample collaborators for the concrete runs below *)

Module Samples.

(** The library functions restricted to ASCII. *)
Definition ascii_lower (s : str) : str :=
  map (fun c => if (65 <=? c) && (c <=? 90) then c + 32 else c) s.

Definition ascii_lib : pylib := {|
  py_lower := ascii_lower;
  py_isdigit := fun s => truthy s && forallb is_ascii_digit s;
  py_is_decimal := is_ascii_digit;
  py_int := fun s => if truthy s && forallb is_ascii_digit s
                     then Some (int_ascii s) else None
|}.

(** A freshly initialised repository: no commits, no tags, no files, an
    identity configured at repository level, the clock at
    2024-03-09 07:05:00. *)
Definition empty_repo : repo := {|
  inside_work_tree := u "true";
  current_branch := u "main";
  head_ref := u "HEAD";
  upstream := [];
  behind := [];
  rev_parse_head := [];
  status_porcelain := [];
  described_tag := [];
  tags := ∅;
  config_user_name := u "Ada";
  config_user_email := u "ada@example.org";
  global_user_name := [];
  global_user_email := [];
  staged_names := [];
  staged_diff := [];
  command_fails := fun _ => false;
  now := {| year := 2024; month := 3; day := 9; hour := 7; minute := 5; second := 0 |}
|}.

(** A tool that answers every prompt with [out] on standard output. *)
Definition answering (out : str) : llm :=
  fun _ _ => {| popen := None; poll := fun _ => true; kill := None;
                communicate := Return (out, []) |}.

(** A tool that never finishes. *)
Definition hanging : llm :=
  fun _ _ => {| popen := None; poll := fun _ => false; kill := None;
                communicate := Return ([], []) |}.

(** A repository with a history: the latest tag is [v1.2.3], [v1.2.4] is
    taken as well, and two changed files are staged by [git add .]. *)
Definition working_repo : repo := {|
  inside_work_tree := u "true";
  current_branch := u "main";
  head_ref := u "main";
  upstream := [];
  behind := [];
  rev_parse_head := u "4f2a9c1";
  status_porcelain := u " M a.py";
  described_tag := u "v1.2.3";
  tags := {[ u "v1.2.3"; u "v1.2.4" ]};
  config_user_name := u "Ada";
  config_user_email := u "ada@example.org";
  global_user_name := [];
  global_user_email := [];
  staged_names := u "a.py" ++ [NEWLINE] ++ u "b.py";
  staged_diff := u "+x = 1";
  command_fails := fun _ => false;
  now := {| year := 2024; month := 3; day := 9; hour := 7; minute := 5; second := 0 |}
|}.

(** An identity set in the global file only. *)
Definition global_identity : Identity.git_scopes := {|
  Identity.system_file := ∅;
  Identity.global_file :=
    {[ u "user.name" := u "Ada"; u "user.email" := u "ada@example.org" ]};
  Identity.local_file := ∅;
  Identity.worktree_file := ∅;
  Identity.command_settings := ∅
|}.

(** One model listed by [llm models] and configured as [gup.model]. *)
Definition one_model : Review.tooling := {|
  Review.llm_models_output := u "OpenAI Chat: gpt-4o-mini (aliases: 4o-mini)";
  Review.gup_model := u "gpt-4o-mini";
  Review.gup_timeout := u "12"
|}.

(** A reading of [int] that accepts the strings of ASCII digits only. *)
Definition ascii_int (s : str) : option Z :=
  if truthy s && forallb is_ascii_digit s then Some (Z.of_N (int_ascii s)) else None.

End Samples.

(** * Properties *)

(** ** Facts about the string operations *)

Lemma digits_inj d1 d2 : digits d1 = digits d2 → d1 = d2.
Proof.
  revert d2; induction d1; intros [] H; simpl in H;
    try discriminate; try reflexivity;
    injection H as H; f_equal; auto.
Qed.

Lemma str_of_int_inj n1 n2 : str_of_int n1 = str_of_int n2 → n1 = n2.
Proof.
  unfold str_of_int; intros H.
  apply DecimalN.Unsigned.to_uint_inj, digits_inj, H.
Qed.

(** Every character of a rendered number is an ASCII digit. *)
Lemma digits_range d c : c ∈ digits d → 48 <= c <= 57.
Proof.
  induction d; simpl; intros H;
    try (apply elem_of_nil in H; contradiction);
    apply elem_of_cons in H as [-> | H]; auto; lia.
Qed.

Module StrFacts.

Lemma is_linebreak_is_space c : is_linebreak c = true → is_space c = true.
Proof.
  unfold is_linebreak, is_space.
  rewrite !orb_true_iff, !andb_true_iff, !N.leb_le, !N.eqb_eq. lia.
Qed.

Lemma space_is_space : is_space SPACE = true.
Proof. reflexivity. Qed.

Lemma lstrip_nonspace c s : is_space c = false → lstrip (c :: s) = c :: s.
Proof. intros H. simpl. by rewrite H. Qed.

Lemma lstrip_head s c s' : lstrip s = c :: s' → is_space c = false.
Proof.
  induction s as [| x s IH]; simpl; [discriminate |].
  destruct (is_space x) eqn:E; [exact IH |].
  intros [= -> _]. exact E.
Qed.

Lemma rstrip_nonspace c s : is_space c = false → rstrip (c :: s) = c :: rstrip s.
Proof. intros H. simpl. rewrite H. by destruct (rstrip s). Qed.

Lemma rstrip_cons_ne c s : rstrip s ≠ [] → rstrip (c :: s) = c :: rstrip s.
Proof. intros H. simpl. by destruct (rstrip s). Qed.

Lemma rstrip_snoc_nonspace s c : is_space c = false → rstrip (s ++ [c]) = s ++ [c].
Proof.
  intros H. induction s as [| x s IH]; simpl.
  - by rewrite H.
  - rewrite IH. by destruct s.
Qed.

(** [rstrip] keeps a prefix of its argument. *)
Lemma rstrip_prefix s : ∃ w, s = rstrip s ++ w.
Proof.
  induction s as [| x s [w IH]]; simpl; [by exists [] |].
  destruct (rstrip s) eqn:E.
  - destruct (is_space x).
    + by exists (x :: s).
    + exists s. done.
  - exists w. simpl. by rewrite IH at 1.
Qed.

Lemma rstrip_idem s : rstrip (rstrip s) = rstrip s.
Proof.
  induction s as [| x s IH]; simpl; [done |].
  destruct (rstrip s) as [| y r] eqn:E.
  - destruct (is_space x) eqn:Ex; simpl; [done | by rewrite Ex].
  - rewrite rstrip_cons_ne; [by rewrite IH |].
    rewrite IH. done.
Qed.

(** A stripped text is empty or starts with a non-space character. *)
Lemma strip_head s c s' : strip s = c :: s' → is_space c = false.
Proof.
  unfold strip. destruct (lstrip s) as [| x t] eqn:E; [discriminate |].
  pose proof (lstrip_head _ _ _ E) as Hx.
  rewrite rstrip_nonspace by done. by intros [= <- _].
Qed.

Lemma lstrip_rstrip_lstrip s : lstrip (rstrip (lstrip s)) = rstrip (lstrip s).
Proof.
  destruct (rstrip (lstrip s)) as [| c t] eqn:E; [done |].
  apply lstrip_nonspace. eapply strip_head. exact E.
Qed.

Lemma strip_idem s : strip (strip s) = strip s.
Proof. unfold strip. by rewrite lstrip_rstrip_lstrip, rstrip_idem. Qed.

(** A text that starts and ends with non-space characters is stripped. *)
Lemma strip_id_snoc c s d :
  is_space c = false → is_space d = false → strip (c :: s ++ [d]) = c :: s ++ [d].
Proof.
  intros Hc Hd. unfold strip. rewrite lstrip_nonspace by done.
  exact (rstrip_snoc_nonspace (c :: s) d Hd).
Qed.

Lemma strip_id_single c : is_space c = false → strip [c] = [c].
Proof. intros Hc. unfold strip. simpl. rewrite Hc. simpl. by rewrite Hc. Qed.

(** With a non-space first character, [strip] keeps a non-empty prefix. *)
Lemma strip_prefix_nonspace c s :
  is_space c = false → ∃ t w, strip (c :: s) = c :: t ∧ c :: s = (c :: t) ++ w.
Proof.
  intros Hc. unfold strip. rewrite lstrip_nonspace, rstrip_nonspace by done.
  destruct (rstrip_prefix s) as [w Hw].
  exists (rstrip s), w. split; [done |]. simpl. by rewrite <- Hw.
Qed.

(** *** Lines *)

Lemma line_prefix_length s : (length (line_prefix s) <= length s)%nat.
Proof.
  induction s as [| c s IH]; simpl; [lia |].
  destruct (is_linebreak c); simpl; lia.
Qed.

Lemma line_prefix_app_le s w :
  (length (line_prefix s) <= length (line_prefix (s ++ w)))%nat.
Proof.
  induction s as [| c s IH]; simpl; [lia |].
  destruct (is_linebreak c); simpl; lia.
Qed.

Lemma line_prefix_no_linebreak s :
  Forall (fun c => is_linebreak c = false) (line_prefix s).
Proof.
  induction s as [| c s IH]; simpl; [constructor |].
  destruct (is_linebreak c) eqn:E; by constructor.
Qed.

Lemma line_prefix_stop l w :
  Forall (fun c => is_linebreak c = false) l →
  line_prefix (l ++ NEWLINE :: w) = l.
Proof.
  induction 1 as [| c l Hc _ IH]; simpl; [done |].
  by rewrite Hc, IH.
Qed.

Lemma line_prefix_all l :
  Forall (fun c => is_linebreak c = false) l → line_prefix l = l.
Proof.
  induction 1 as [| c l Hc _ IH]; simpl; [done |].
  by rewrite Hc, IH.
Qed.

(** The first line [splitlines] returns is the text before the first
    line boundary. *)
Lemma splitlines_head s :
  s ≠ [] → ∃ ls, splitlines s = line_prefix s :: ls.
Proof.
  induction s as [| c s IH]; [done |]. intros _. simpl.
  destruct (is_linebreak c); [eauto |].
  destruct s as [| c' s'].
  - simpl. eauto.
  - destruct IH as [ls IH]; [done |].
    rewrite IH. eauto.
Qed.

Lemma splitlines_nil s : splitlines s = [] → s = [].
Proof.
  destruct s as [| c s]; [done |]. intros H.
  destruct (splitlines_head (c :: s)) as [ls Hls]; [done |]. congruence.
Qed.

Lemma splitlines_first s l ls : splitlines s = l :: ls → l = line_prefix s.
Proof.
  intros H. destruct s as [| c s]; [done |].
  destruct (splitlines_head (c :: s)) as [ls' Hls]; [done |]. congruence.
Qed.

(** *** Joining *)

Lemma join_cons sep l ls :
  join sep (l :: ls) = l ++ match ls with [] => [] | _ => sep ++ join sep ls end.
Proof. destruct ls; simpl; [by rewrite app_nil_r | done]. Qed.

(** The first line of [l] followed by further newline-joined lines is no
    longer than [l]. *)
Lemma line_prefix_join_le l ls :
  (length (line_prefix (join [NEWLINE] (l :: ls))) <= length l)%nat.
Proof.
  rewrite join_cons. destruct ls as [| l' ls].
  - rewrite app_nil_r. apply line_prefix_length.
  - simpl. induction l as [| c l IH]; simpl; [lia |].
    destruct (is_linebreak c); simpl; lia.
Qed.

Lemma line_prefix_join l ls :
  Forall (fun c => is_linebreak c = false) l →
  line_prefix (join [NEWLINE] (l :: ls)) = l.
Proof.
  intros H. rewrite join_cons. destruct ls as [| l' ls].
  - rewrite app_nil_r. by apply line_prefix_all.
  - simpl. by apply line_prefix_stop.
Qed.

(** *** Splitting at the last occurrence *)

Lemma before_last_Some c s p :
  before_last c s = Some p → ∃ w, s = p ++ c :: w ∧ c ∉ w.
Proof.
  revert p. induction s as [| x s IH]; simpl; intros p; [discriminate |].
  destruct (before_last c s) as [q |] eqn:E.
  - intros [= <-]. destruct (IH q eq_refl) as (w & -> & Hw). by exists w.
  - destruct (N.eqb_spec x c) as [-> | Hne]; [| discriminate].
    intros [= <-]. exists s. split; [done |].
    clear IH. induction s as [| y s IH]; [apply not_elem_of_nil |].
    simpl in E. destruct (before_last c s); [discriminate |].
    destruct (N.eqb_spec y c); [discriminate |].
    apply not_elem_of_cons. split; [congruence | by apply IH].
Qed.

Lemma before_last_None c s : before_last c s = None → c ∉ s.
Proof.
  induction s as [| x s IH]; simpl; [intros _; apply not_elem_of_nil |].
  destruct (before_last c s); [discriminate |].
  destruct (N.eqb_spec x c); [discriminate |]. intros _.
  apply not_elem_of_cons. split; [congruence | by apply IH].
Qed.

End StrFacts.

(** ** Facts about the message normalizer *)

Module NormalizerFacts.
Import Normalizer StrFacts.

Lemma cut_at_space_cases s limit :
  ((SPACE ∉ take limit s) ∧ cut_at_space s limit = take limit s)
  ∨ (∃ w, take limit s = cut_at_space s limit ++ SPACE :: w ∧ SPACE ∉ w).
Proof.
  unfold cut_at_space, rsplit1. case_bool_decide as Hin.
  - right. destruct (before_last SPACE (take limit s)) as [p |] eqn:E.
    + simpl. by apply before_last_Some.
    + apply before_last_None in E. contradiction.
  - by left.
Qed.

Lemma cut_at_space_length s limit : (length (cut_at_space s limit) <= limit)%nat.
Proof.
  assert (length (take limit s) <= limit)%nat as Hle by (rewrite length_take; lia).
  destruct (cut_at_space_cases s limit) as [[_ ->] | (w & Hw & _)]; [lia |].
  rewrite Hw, length_app in Hle. simpl in Hle. lia.
Qed.

(** When the prefix contains a space the cut leaves room for one more
    character. *)
Lemma cut_at_space_length_lt s limit :
  SPACE ∈ take limit s → (length (cut_at_space s limit) < limit)%nat.
Proof.
  intros Hin. assert (length (take limit s) <= limit)%nat as Hle by (rewrite length_take; lia).
  destruct (cut_at_space_cases s limit) as [[Hno _] | (w & Hw & _)]; [contradiction |].
  rewrite Hw, length_app in Hle. simpl in Hle. lia.
Qed.

Lemma cut_at_space_prefix s limit : ∃ w, s = cut_at_space s limit ++ w.
Proof.
  destruct (cut_at_space_cases s limit) as [[_ ->] | (w & Hw & _)].
  - exists (drop limit s). by rewrite take_drop.
  - exists (SPACE :: w ++ drop limit s).
    rewrite <- (take_drop limit s) at 1. rewrite Hw. by rewrite <- app_assoc.
Qed.

Lemma cut_at_space_head c s limit :
  is_space c = false → (1 <= limit)%nat →
  ∃ t, cut_at_space (c :: s) limit = c :: t.
Proof.
  intros Hc Hl. destruct limit as [| n]; [lia |].
  destruct (cut_at_space_cases (c :: s) (S n)) as [[_ ->] | (w & Hw & _)].
  - simpl. eauto.
  - destruct (cut_at_space (c :: s) (S n)) as [| x t].
    + simpl in Hw. injection Hw as -> _. by rewrite space_is_space in Hc.
    + simpl in Hw. injection Hw as -> _. eauto.
Qed.

Lemma cut_at_space_no_linebreak s limit :
  Forall (fun c => is_linebreak c = false) s →
  Forall (fun c => is_linebreak c = false) (cut_at_space s limit).
Proof.
  intros H. destruct (cut_at_space_prefix s limit) as [w Hw].
  rewrite Hw in H. by apply Forall_app in H as [H _].
Qed.

(** The body of [enforce_summary_limit] with the list update carried out. *)
Lemma enforce_summary_limit_unfold msg limit :
  enforce_summary_limit msg limit =
  match splitlines (strip msg) with
  | [] => msg
  | s :: ls =>
      if (length s <=? limit)%nat then msg
      else join [NEWLINE] (cut_at_space s limit :: ls)
  end.
Proof. unfold enforce_summary_limit. by destruct (splitlines (strip msg)). Qed.

Lemma truncate_summary_unfold s limit :
  truncate_summary s limit =
  if (length (strip s) <=? limit)%nat then strip s
  else cut_at_space (strip s) limit ++ [ELLIPSIS].
Proof. reflexivity. Qed.

(** The first line of a stripped, non-empty text starts with its first
    character, which is not a space. *)
Lemma first_line_strip msg s ls :
  splitlines (strip msg) = s :: ls →
  ∃ c t, s = c :: t ∧ is_space c = false
         ∧ Forall (fun c => is_linebreak c = false) s.
Proof.
  intros H. pose proof (splitlines_first _ _ _ H) as ->.
  destruct (strip msg) as [| c m] eqn:E; [discriminate |].
  pose proof (strip_head _ _ _ E) as Hc.
  assert (is_linebreak c = false) as Hlb.
  { destruct (is_linebreak c) eqn:Hlb; [| done].
    apply is_linebreak_is_space in Hlb. congruence. }
  exists c, (line_prefix m). split; [simpl; by rewrite Hlb |].
  split; [done | apply line_prefix_no_linebreak].
Qed.

(** [enforce_summary_limit] returns its argument when the first line of
    the stripped text fits. *)
Lemma enforce_summary_limit_fits msg limit :
  (∀ l, first_line (strip msg) = Some l → (length l <= limit)%nat) →
  enforce_summary_limit msg limit = msg.
Proof.
  intros H. rewrite enforce_summary_limit_unfold. unfold first_line in H.
  destruct (splitlines (strip msg)) as [| s ls]; [done |].
  specialize (H s eq_refl). apply Nat.leb_le in H. by rewrite H.
Qed.

(** The first line of a cut result is no longer than the cut. *)
Lemma first_line_join_le cut ls l :
  first_line (join [NEWLINE] (cut :: ls)) = Some l →
  (length l <= length cut)%nat.
Proof.
  unfold first_line. intros H.
  destruct (splitlines (join [NEWLINE] (cut :: ls))) as [| l' ls'] eqn:E; [discriminate |].
  injection H as ->. apply splitlines_first in E as ->.
  apply line_prefix_join_le.
Qed.

Lemma enforce_first_line_le msg limit l :
  strip msg = msg →
  first_line (enforce_summary_limit msg limit) = Some l →
  (length l <= limit)%nat.
Proof.
  intros Hs. rewrite enforce_summary_limit_unfold, Hs.
  destruct (splitlines msg) as [| s ls] eqn:E.
  - unfold first_line. by rewrite E.
  - destruct (Nat.leb_spec (length s) limit) as [Hle | Hgt].
    + unfold first_line. rewrite E. by intros [= <-].
    + intros H. apply first_line_join_le in H.
      pose proof (cut_at_space_length s limit). lia.
Qed.

Lemma enforce_cut_at_space msg limit s ls :
  splitlines (strip msg) = s :: ls →
  (limit < length s)%nat →
  SPACE ∈ take limit s →
  ∃ w, first_line (enforce_summary_limit msg limit) = Some (cut_at_space s limit)
       ∧ take limit s = cut_at_space s limit ++ SPACE :: w
       ∧ SPACE ∉ w.
Proof.
  intros E Hgt Hin. rewrite enforce_summary_limit_unfold, E.
  destruct (Nat.leb_spec (length s) limit) as [Hle | _]; [lia |].
  destruct (first_line_strip _ _ _ E) as (c & t & -> & Hc & Hlb).
  assert (1 <= limit)%nat as Hl.
  { destruct limit; [| lia]. rewrite take_0 in Hin. by apply elem_of_nil in Hin. }
  destruct (cut_at_space_cases (c :: t) limit) as [[Hno _] | (w & Hw & Hfree)];
    [contradiction |].
  exists w. split; [| done].
  destruct (cut_at_space_head c t limit Hc Hl) as [t' Ht'].
  pose proof (cut_at_space_no_linebreak (c :: t) limit Hlb) as Hcut.
  unfold first_line.
  destruct (splitlines_head (join [NEWLINE] (cut_at_space (c :: t) limit :: ls)))
    as [ls' Hls'].
  { rewrite join_cons, Ht'. done. }
  rewrite Hls'. simpl. f_equal. by apply line_prefix_join.
Qed.

(** A cut result is left alone by a second pass. *)
Lemma enforce_summary_limit_idem msg limit :
  (1 <= limit)%nat →
  enforce_summary_limit (enforce_summary_limit msg limit) limit
  = enforce_summary_limit msg limit.
Proof.
  intros Hl. rewrite (enforce_summary_limit_unfold msg).
  destruct (splitlines (strip msg)) as [| s ls] eqn:E.
  - rewrite enforce_summary_limit_unfold. by rewrite E.
  - destruct (Nat.leb_spec (length s) limit) as [Hle | Hgt].
    + apply enforce_summary_limit_fits. unfold first_line. rewrite E.
      by intros l [= <-].
    + apply enforce_summary_limit_fits. intros l Hfl.
      destruct (first_line_strip _ _ _ E) as (c & t & -> & Hc & Hlb).
      destruct (cut_at_space_head c t limit Hc Hl) as [t' Ht'].
      pose proof (cut_at_space_length (c :: t) limit) as Hlen.
      pose proof (line_prefix_join_le (cut_at_space (c :: t) limit) ls) as Hpre.
      rewrite join_cons, Ht' in Hfl, Hpre.
      match type of Hfl with context [ (c :: t') ++ ?x ] => set (tl := x) in * end.
      change ((c :: t') ++ tl) with (c :: (t' ++ tl)) in *.
      destruct (strip_prefix_nonspace c (t' ++ tl) Hc) as (r & w & Hr & Hw).
      unfold first_line in Hfl. rewrite Hr in Hfl.
      destruct (splitlines (c :: r)) as [| l' ls'] eqn:El; [discriminate |].
      injection Hfl as ->. apply splitlines_first in El as ->.
      pose proof (line_prefix_app_le (c :: r) w) as Happ.
      rewrite <- Hw in Happ. rewrite Ht' in Hlen. lia.
Qed.

Lemma truncate_summary_fits s limit :
  (length (strip s) <= limit)%nat → truncate_summary s limit = strip s.
Proof.
  intros H. rewrite truncate_summary_unfold. apply Nat.leb_le in H. by rewrite H.
Qed.

Lemma ellipsis_not_space : is_space ELLIPSIS = false.
Proof. reflexivity. Qed.

Lemma truncate_summary_idem s limit :
  truncate_summary (truncate_summary s limit) limit = truncate_summary s limit.
Proof.
  rewrite (truncate_summary_unfold s).
  destruct (Nat.leb_spec (length (strip s)) limit) as [Hle | Hgt].
  - rewrite truncate_summary_fits; rewrite strip_idem; done.
  - assert (strip (cut_at_space (strip s) limit ++ [ELLIPSIS])
            = cut_at_space (strip s) limit ++ [ELLIPSIS]) as Hid.
    { destruct (cut_at_space (strip s) limit) as [| c t] eqn:Ec.
      - apply strip_id_single, ellipsis_not_space.
      - simpl. apply strip_id_snoc; [| apply ellipsis_not_space].
        destruct (cut_at_space_prefix (strip s) limit) as [w Hw].
        rewrite Ec in Hw. eapply strip_head. exact Hw. }
    destruct (cut_at_space_cases (strip s) limit) as [[Hno Hcut] | (w & Hw & Hfree)].
    + rewrite truncate_summary_unfold, Hid.
      assert (length (take limit (strip s)) = limit) as Htake
        by (rewrite length_take; lia).
      destruct (Nat.leb_spec (length (cut_at_space (strip s) limit ++ [ELLIPSIS])) limit)
        as [Hle | _].
      { rewrite length_app, Hcut, Htake in Hle. simpl in Hle. lia. }
      f_equal. rewrite Hcut. unfold cut_at_space.
      rewrite take_app_length' by done.
      by rewrite bool_decide_eq_false_2.
    + rewrite truncate_summary_fits; rewrite Hid; [done |].
      assert (SPACE ∈ take limit (strip s)) as Hin
        by (rewrite Hw; apply elem_of_app; right; left).
      pose proof (cut_at_space_length_lt _ _ Hin).
      rewrite length_app. simpl. lia.
Qed.

End NormalizerFacts.

Module LinesFacts.
Import Normalizer StrFacts NormalizerFacts.

Lemma splitlines_app_newline l rest :
  no_linebreak l → splitlines (l ++ NEWLINE :: rest) = l :: splitlines rest.
Proof.
  induction 1 as [| c l Hc _ IH]; simpl.
  - by destruct rest.
  - by rewrite Hc, IH.
Qed.

Lemma splitlines_single l : no_linebreak l → l ≠ [] → splitlines l = [l].
Proof.
  induction 1 as [| c l Hc Hl IH]; [done |]. intros _. simpl. rewrite Hc.
  destruct l as [| c' l']; [done |]. by rewrite IH.
Qed.

(** Joining lines with newlines and splitting again gives the lines back,
    unless the last one is empty. *)
Lemma splitlines_join ls :
  Forall no_linebreak ls → last ls ≠ Some [] →
  splitlines (join [NEWLINE] ls) = ls.
Proof.
  induction 1 as [| l ls Hl Hls IH]; [done |]. intros Hlast.
  destruct ls as [| l2 ls'].
  - simpl. apply splitlines_single; [done |]. intros ->. by apply Hlast.
  - change (join [NEWLINE] (l :: l2 :: ls'))
      with (l ++ NEWLINE :: join [NEWLINE] (l2 :: ls')).
    rewrite splitlines_app_newline by done. f_equal. by apply IH.
Qed.

Lemma splitlines_linebreak c s :
  is_linebreak c = true →
  splitlines (c :: s) = [] :: splitlines (after_linebreak c s).
Proof.
  intros Hc. simpl. rewrite Hc. destruct s as [| c' s'']; [done |].
  simpl. by destruct ((c =? 13) && (c' =? 10)).
Qed.

Lemma after_linebreak_length c s : (length (after_linebreak c s) <= length s)%nat.
Proof.
  destruct s as [| c' s'']; simpl; [lia |].
  destruct ((c =? 13) && (c' =? 10)); simpl; lia.
Qed.

Lemma splitlines_no_linebreak s : Forall no_linebreak (splitlines s).
Proof.
  induction s as [s IH] using (induction_ltof1 _ (@length N)).
  unfold ltof in IH. destruct s as [| c s']; [constructor |].
  destruct (is_linebreak c) eqn:Hc.
  - rewrite splitlines_linebreak by done. constructor; [constructor |].
    apply IH. pose proof (after_linebreak_length c s').
    simpl. lia.
  - simpl. rewrite Hc.
    assert (Forall no_linebreak (splitlines s')) as Hs'
      by (apply IH; simpl; lia).
    destruct (splitlines s') as [| l ls]; [by repeat constructor |].
    apply Forall_cons in Hs' as [Hl Hls]. by repeat constructor.
Qed.

(** A text that ends with a character other than a line boundary has no
    empty last line. *)
Lemma splitlines_last s c :
  is_linebreak c = false → last (splitlines (s ++ [c])) ≠ Some [].
Proof.
  intros Hc. induction s as [s IH] using (induction_ltof1 _ (@length N)).
  unfold ltof in IH. destruct s as [| x s']; [simpl; by rewrite Hc |].
  destruct (is_linebreak x) eqn:Hx.
  - change ((x :: s') ++ [c]) with (x :: (s' ++ [c])).
    rewrite splitlines_linebreak by done.
    assert (∃ t, after_linebreak x (s' ++ [c]) = t ++ [c]
                 ∧ (length t <= length s')%nat) as (t & Ht & Hlen).
    { destruct s' as [| c' s'']; simpl.
      - exists []. split; [| done]. destruct ((x =? 13) && (c =? 10)) eqn:E; [| done].
        apply andb_true_iff in E as [_ E]. apply N.eqb_eq in E. subst c. done.
      - destruct ((x =? 13) && (c' =? 10)).
        + exists s''. split; [done | lia].
        + exists (c' :: s''). split; [done | simpl; lia]. }
    rewrite Ht.
    assert (last (splitlines (t ++ [c])) ≠ Some []) as Hlast
      by (apply IH; simpl; lia).
    destruct (splitlines (t ++ [c])) as [| l ls] eqn:E; [| done].
    apply splitlines_nil in E. by destruct t.
  - simpl. rewrite Hx.
    assert (last (splitlines (s' ++ [c])) ≠ Some []) as Hlast
      by (apply IH; simpl; lia).
    destruct (splitlines (s' ++ [c])) as [| l ls]; [done |].
    by destruct ls.
Qed.

(** A non-empty stripped text ends with a character that is not a space. *)
Lemma rstrip_last s : rstrip s = [] ∨ ∃ t c, rstrip s = t ++ [c] ∧ is_space c = false.
Proof.
  induction s as [| x s IH]; simpl; [by left |].
  destruct (rstrip s) as [| y r] eqn:E.
  - destruct (is_space x) eqn:Hx; [by left |].
    right. by exists [], x.
  - right. destruct IH as [IH | (t & c & IH & Hc)]; [done |].
    exists (x :: t), c. split; [| done]. simpl. by rewrite IH.
Qed.

Lemma splitlines_strip_last msg : last (splitlines (strip msg)) ≠ Some [].
Proof.
  unfold strip. destruct (rstrip_last (lstrip msg)) as [-> | (t & c & -> & Hc)]; [done |].
  apply splitlines_last. destruct (is_linebreak c) eqn:E; [| done].
  apply is_linebreak_is_space in E. congruence.
Qed.

End LinesFacts.

(** ** Facts about the version negotiator *)

Module NegotiatorFacts.
Import Negotiator.

Section Search.

(** The tags in use and the components the search keeps fixed. *)
Context (used : gset str) (major minor : N).

Lemma version_tag_inj k1 k2 :
  version_tag major minor k1 = version_tag major minor k2 → k1 = k2.
Proof.
  unfold version_tag; intros H.
  repeat apply app_inv_head in H.
  by apply str_of_int_inj.
Qed.

Lemma tag_exists_true tag : tag_exists used tag = true ↔ tag ∈ used.
Proof. unfold tag_exists. apply bool_decide_eq_true. Qed.

Lemma tag_exists_false tag : tag_exists used tag = false ↔ tag ∉ used.
Proof. unfold tag_exists. apply bool_decide_eq_false. Qed.

Lemma candidates_NoDup patch n : NoDup (candidates major minor patch n).
Proof.
  unfold candidates. apply NoDup_fmap_2_strong; [| apply NoDup_seq].
  intros i j _ _ H. apply version_tag_inj in H. lia.
Qed.

Lemma candidates_length patch n : length (candidates major minor patch n) = n.
Proof. unfold candidates. by rewrite length_map, length_seq. Qed.

(** Pigeonhole: a run of [n] consecutive used candidates fits in the set. *)
Lemma used_run_bound patch n :
  (∀ j, patch < j <= patch + N.of_nat n → version_tag major minor j ∈ used) →
  (n <= size used)%nat.
Proof.
  intros Hall.
  rewrite <- (candidates_length patch n).
  rewrite <- (size_list_to_set (C := gset str)) by apply candidates_NoDup.
  apply subseteq_size. intros t Ht.
  apply elem_of_list_to_set in Ht.
  unfold candidates in Ht. apply list_elem_of_fmap in Ht as (i & -> & Hi).
  apply elem_of_seq in Hi. apply Hall. lia.
Qed.

(** Some candidate among the first [size used + 1] is free. *)
Lemma free_candidate_exists patch :
  ∃ j, patch < j <= patch + N.of_nat (S (size used))
       ∧ version_tag major minor j ∉ used.
Proof.
  destruct (decide (Forall (fun t => t ∈ used)
                      (candidates major minor patch (S (size used))))) as [Hall | Hex].
  - exfalso.
    assert (S (size used) <= size used)%nat; [| lia].
    apply (used_run_bound patch). intros j Hj.
    rewrite Forall_forall in Hall. apply Hall.
    unfold candidates. apply list_elem_of_fmap.
    exists (N.to_nat (j - patch) - 1)%nat. split.
    + f_equal. lia.
    + apply elem_of_seq. lia.
  - apply not_Forall_Exists in Hex; [| intros t; apply _].
    apply Exists_exists in Hex as (t & Ht & Hfree).
    unfold candidates in Ht. apply list_elem_of_fmap in Ht as (i & -> & Hi).
    apply elem_of_seq in Hi.
    exists (patch + N.of_nat (S i)). split; [lia | exact Hfree].
Qed.

(** What the loop returns when a free candidate lies within the fuel. *)
Lemma next_free_version_spec fuel : ∀ patch,
  (∃ j, patch < j <= patch + N.of_nat fuel ∧ version_tag major minor j ∉ used) →
  ∃ k, next_free_version used fuel major minor patch = Some (version_tag major minor k)
       ∧ patch < k <= patch + N.of_nat fuel
       ∧ (version_tag major minor k ∉ used)
       ∧ (∀ j, patch < j < k → version_tag major minor j ∈ used).
Proof.
  induction fuel as [| fuel IH]; intros patch (j & Hj & Hfree).
  - lia.
  - simpl. destruct (tag_exists used (version_tag major minor (patch + 1))) eqn:E; simpl.
    + apply tag_exists_true in E.
      destruct (IH (patch + 1)) as (k & Hk & Hrange & Hk_free & Hmin).
      { exists j. split; [| exact Hfree].
        assert (j ≠ patch + 1) by (intros ->; contradiction). lia. }
      exists k. repeat split; try lia; auto.
      intros i Hi. destruct (decide (i = patch + 1)) as [-> | Hne]; [exact E |].
      apply Hmin. lia.
    + apply tag_exists_false in E.
      exists (patch + 1). repeat split; try lia; auto.
Qed.

(** While every candidate within the fuel is taken, the loop is still
    running when the fuel is spent. *)
Lemma next_free_version_running fuel : ∀ patch,
  (∀ j, patch < j <= patch + N.of_nat fuel → version_tag major minor j ∈ used) →
  next_free_version used fuel major minor patch = None.
Proof.
  induction fuel as [| fuel IH]; intros patch Hused; [done |].
  simpl. assert (tag_exists used (version_tag major minor (patch + 1)) = true) as ->.
  { apply tag_exists_true, Hused. lia. }
  simpl. apply IH. intros j Hj. apply Hused. lia.
Qed.

(** More fuel than the loop needs does not change its result. *)
Lemma next_free_version_fuel_mono fuel : ∀ patch r fuel',
  (next_free_version used fuel major minor patch = Some r) →
  (fuel <= fuel')%nat →
  (next_free_version used fuel' major minor patch = Some r).
Proof.
  induction fuel as [| fuel IH]; intros patch r fuel' H Hle; [discriminate |].
  destruct fuel' as [| fuel']; [lia |].
  simpl in *. destruct (negb _); [exact H |].
  apply IH; [exact H | lia].
Qed.

End Search.

End NegotiatorFacts.

Module ParsingFacts.
Import Negotiator.

Lemma int_ascii_acc d : ∀ acc : positive,
  fold_left (fun a c => 10 * a + (c - 48)) (digits d) (Npos acc)
  = Npos (Pos.of_uint_acc d acc).
Proof.
  induction d; intros acc; simpl; try reflexivity;
    rewrite <- IHd; f_equal; lia.
Qed.

Lemma int_ascii_digits d : int_ascii (digits d) = N.of_uint d.
Proof.
  unfold int_ascii, N.of_uint.
  induction d; simpl; try reflexivity; try exact IHd; apply int_ascii_acc.
Qed.

Lemma int_ascii_str_of_int n : int_ascii (str_of_int n) = n.
Proof.
  unfold str_of_int. rewrite int_ascii_digits. apply DecimalN.Unsigned.of_to.
Qed.

Lemma is_ascii_digit_range c : is_ascii_digit c = true ↔ 48 <= c <= 57.
Proof. unfold is_ascii_digit. rewrite andb_true_iff, !N.leb_le. done. Qed.

Lemma span_all (p : N → bool) l rest :
  Forall (fun c => p c = true) l →
  match rest with [] => True | c :: _ => p c = false end →
  span p (l ++ rest) = (l, rest).
Proof.
  intros Hl Hrest. induction Hl as [| c l Hc _ IH]; simpl.
  - destruct rest as [| c rest]; [done |]. simpl. by rewrite Hrest.
  - by rewrite Hc, IH.
Qed.

(** The scan recognises three non-empty digit groups separated by dots. *)
Lemma scan_version_groups (p : N → bool) g1 g2 g3 rest :
  p 46 = false →
  Forall (fun c => p c = true) g1 → g1 ≠ [] →
  Forall (fun c => p c = true) g2 → g2 ≠ [] →
  Forall (fun c => p c = true) g3 → g3 ≠ [] →
  match rest with [] => True | c :: _ => p c = false end →
  scan_version p (118 :: g1 ++ 46 :: g2 ++ 46 :: g3 ++ rest)
  = Some (g1, g2, g3, rest).
Proof.
  intros Hdot H1 N1 H2 N2 H3 N3 Hrest. unfold scan_version.
  change (118 =? 118) with true. cbv iota.
  rewrite (span_all p g1) by done.
  destruct g1 as [| c1 t1]; [done |]. cbv iota beta.
  change (46 =? 46) with true. cbv iota.
  rewrite (span_all p g2) by done.
  destruct g2 as [| c2 t2]; [done |]. cbv iota beta.
  rewrite (span_all p g3) by done.
  by destruct g3.
Qed.

Lemma str_of_int_digits n : Forall (fun c => is_ascii_digit c = true) (str_of_int n).
Proof.
  apply Forall_forall. intros c Hc.
  apply is_ascii_digit_range. by apply (digits_range (N.to_uint n)).
Qed.

Lemma str_of_int_nonempty n : str_of_int n ≠ [].
Proof.
  unfold str_of_int. destruct n as [| p]; [done |].
  simpl. pose proof (DecimalPos.Unsigned.to_uint_nonnil p) as H.
  by destruct (Pos.to_uint p).
Qed.

(** [semantic] reads a printed tag back. *)
Lemma semantic_version_tag major minor patch :
  semantic (version_tag major minor patch) = Some (major, minor, patch).
Proof.
  unfold semantic, version_tag.
  change (u "v" ++ ?x) with (118 :: x).
  change (u "." ++ ?x) with (46 :: x).
  change (u "." ++ ?x) with (46 :: x).
  rewrite <- (app_nil_r (str_of_int patch)).
  rewrite scan_version_groups;
    auto using str_of_int_digits, str_of_int_nonempty.
  simpl. by rewrite !int_ascii_str_of_int.
Qed.

End ParsingFacts.

(** ** Facts about the commit trailer *)

Module TrailerFacts.
Import Normalizer StrFacts NormalizerFacts.

Lemma split_nonempty c s : split c s ≠ [].
Proof.
  destruct s as [| x s]; simpl; [done |].
  destruct (x =? c); [done |]. by destruct (split c s).
Qed.

(** Splitting at a separator: the pieces of the text before it, then the
    pieces of the text after it. *)
Lemma split_app_sep c a b : split c (a ++ c :: b) = split c a ++ split c b.
Proof.
  induction a as [| x a IH]; simpl.
  - by rewrite N.eqb_refl.
  - destruct (x =? c); [by rewrite IH |].
    rewrite IH. pose proof (split_nonempty c a).
    by destruct (split c a).
Qed.

Lemma split_no_sep c s : c ∉ s → split c s = [s].
Proof.
  induction s as [| x s IH]; simpl; [done |].
  intros H. apply not_elem_of_cons in H as [Hne H].
  destruct (N.eqb_spec x c); [congruence |]. by rewrite IH.
Qed.

Lemma split_hd_no_sep c s : c ∉ hd [] (split c s).
Proof.
  induction s as [| x s IH]; simpl; [apply not_elem_of_nil |].
  destruct (N.eqb_spec x c) as [-> | Hne]; simpl; [apply not_elem_of_nil |].
  pose proof (split_nonempty c s).
  destruct (split c s) as [| l ls]; [done |]. simpl in *.
  apply not_elem_of_cons. split; [congruence | done].
Qed.

Lemma lstrip_elem x s : x ∈ lstrip s → x ∈ s.
Proof.
  induction s as [| c s IH]; simpl; [done |].
  destruct (is_space c); [| done]. intros H. right. by apply IH.
Qed.

Lemma rstrip_elem x s : x ∈ rstrip s → x ∈ s.
Proof.
  destruct (rstrip_prefix s) as [w Hw]. intros H.
  rewrite Hw. apply elem_of_app. by left.
Qed.

Lemma strip_elem x s : x ∈ strip s → x ∈ s.
Proof. unfold strip. intros H. by apply lstrip_elem, rstrip_elem. Qed.

Lemma cut_at_space_elem x s limit : x ∈ cut_at_space s limit → x ∈ s.
Proof.
  destruct (cut_at_space_prefix s limit) as [w Hw]. intros H.
  rewrite Hw. apply elem_of_app. by left.
Qed.

Lemma truncate_summary_elem x s limit :
  x ∈ truncate_summary s limit → x ∈ s ∨ x = ELLIPSIS.
Proof.
  rewrite truncate_summary_unfold.
  destruct (length (strip s) <=? limit)%nat.
  - intros H. left. by apply strip_elem.
  - intros H. apply elem_of_app in H as [H | H].
    + left. apply cut_at_space_elem in H. by apply strip_elem in H.
    + right. by apply list_elem_of_singleton in H.
Qed.

Lemma legacy_title_no_newline commit_msg :
  NEWLINE ∉ Trailer.legacy_title commit_msg.
Proof.
  unfold Trailer.legacy_title. intros H.
  apply truncate_summary_elem in H as [H | H]; [| done].
  unfold or_else in H. destruct (truthy _).
  - apply strip_elem in H. by apply split_hd_no_sep in H.
  - vm_compute in H. by repeat (apply elem_of_cons in H as [H | H]; [done |]);
      apply elem_of_nil in H.
Qed.

Lemma digits_no_newline d : NEWLINE ∉ digits d.
Proof. intros H. apply digits_range in H. unfold NEWLINE in H. lia. Qed.

Lemma str_of_int_no_newline n : NEWLINE ∉ str_of_int n.
Proof. apply digits_no_newline. Qed.

Lemma version_tag_no_newline major minor patch :
  NEWLINE ∉ Negotiator.version_tag major minor patch.
Proof.
  unfold Negotiator.version_tag. pose proof str_of_int_no_newline.
  rewrite !not_elem_of_app. repeat split; auto;
    vm_compute; intros H'; repeat (apply elem_of_cons in H' as [H' | H']; [done |]);
    by apply elem_of_nil in H'.
Qed.

Lemma zfill_no_newline w n : NEWLINE ∉ zfill w (str_of_int n).
Proof.
  unfold zfill. apply not_elem_of_app. split; [| apply str_of_int_no_newline].
  intros H. by apply elem_of_replicate in H as [H _].
Qed.

Lemma strftime_no_newline t : NEWLINE ∉ strftime t.
Proof.
  unfold strftime. pose proof zfill_no_newline.
  rewrite !not_elem_of_app. repeat split; auto;
    vm_compute; intros H'; repeat (apply elem_of_cons in H' as [H' | H']; [done |]);
    by apply elem_of_nil in H'.
Qed.

Lemma literal_no_newline (l : str) :
  forallb (fun c => negb (c =? NEWLINE)) l = true → NEWLINE ∉ l.
Proof.
  induction l as [| c l IH]; simpl; [intros _; apply not_elem_of_nil |].
  intros H. apply andb_true_iff in H as [Hc Hl].
  apply not_elem_of_cons. split; [| by apply IH].
  apply negb_true_iff, N.eqb_neq in Hc. congruence.
Qed.

Lemma zfill2_shape n : n <= 99 → digits_of_width 2 (zfill 2 (str_of_int n)) = true.
Proof.
  intros Hn.
  assert (forallb (fun k => digits_of_width 2 (zfill 2 (str_of_int (N.of_nat k))))
            (seq 0 100) = true) as Hall by (vm_compute; reflexivity).
  rewrite forallb_forall in Hall.
  specialize (Hall (N.to_nat n)). rewrite N2Nat.id in Hall.
  apply Hall, in_seq. lia.
Qed.

Lemma zfill4_shape n : n <= 9999 → digits_of_width 4 (zfill 4 (str_of_int n)) = true.
Proof.
  intros Hn.
  assert (forallb (fun k => digits_of_width 4 (zfill 4 (str_of_int (N.of_nat k))))
            (seq 0 (N.to_nat 10000)) = true) as Hall by (vm_compute; reflexivity).
  rewrite forallb_forall in Hall.
  specialize (Hall (N.to_nat n)). rewrite N2Nat.id in Hall.
  apply Hall, in_seq. lia.
Qed.

Lemma digits_of_width_2 s :
  digits_of_width 2 s = true →
  ∃ a b, s = [a; b] ∧ is_ascii_digit a = true ∧ is_ascii_digit b = true.
Proof.
  destruct s as [| a [| b [| c s]]]; try done. unfold digits_of_width. simpl.
  rewrite andb_true_r. intros H. apply andb_true_iff in H. eauto.
Qed.

Lemma digits_of_width_4 s :
  digits_of_width 4 s = true →
  ∃ a b c d, s = [a; b; c; d] ∧ forallb is_ascii_digit [a; b; c; d] = true.
Proof.
  destruct s as [| a [| b [| c [| d [| e s]]]]]; try done.
  unfold digits_of_width. simpl. eauto 10.
Qed.

Lemma strftime_shape t : valid_datetime t = true → timestamp_shape (strftime t) = true.
Proof.
  unfold valid_datetime. rewrite !andb_true_iff, !N.leb_le.
  intros ((((((((Hy1 & Hy) & Hm1) & Hm) & Hd1) & Hd) & Hh) & Hi) & Hs).
  unfold strftime.
  destruct (digits_of_width_4 _ (zfill4_shape (year t) Hy)) as (y1 & y2 & y3 & y4 & -> & Hy').
  destruct (digits_of_width_2 _ (zfill2_shape (month t) ltac:(lia))) as (m1 & m2 & -> & Hm1' & Hm2').
  destruct (digits_of_width_2 _ (zfill2_shape (day t) ltac:(lia))) as (d1 & d2 & -> & Hd1' & Hd2').
  destruct (digits_of_width_2 _ (zfill2_shape (hour t) ltac:(lia))) as (h1 & h2 & -> & Hh1' & Hh2').
  destruct (digits_of_width_2 _ (zfill2_shape (minute t) ltac:(lia))) as (i1 & i2 & -> & Hi1' & Hi2').
  destruct (digits_of_width_2 _ (zfill2_shape (second t) ltac:(lia))) as (s1 & s2 & -> & Hs1' & Hs2').
  simpl in Hy'. rewrite !andb_true_iff in Hy'. destruct Hy' as (Ha & Hb & Hc & Hd' & _).
  cbn. rewrite Ha, Hb, Hc, Hd', Hm1', Hm2', Hd1', Hd2', Hh1', Hh2', Hi1', Hi2', Hs1', Hs2'.
  reflexivity.
Qed.

End TrailerFacts.

(** ** Facts about runs *)

Module ProgFacts.

Lemma bind_Cont_inv {A B} (m : prog A) (k : A → prog B) s b s'' :
  bind m k s = Cont b s'' → ∃ a s', m s = Cont a s' ∧ k a s' = Cont b s''.
Proof. unfold bind. destruct (m s) as [a s' | |]; [eauto | done | done]. Qed.

Lemma preserves_ret {A} P (a : A) : preserves P (ret a).
Proof. by intros s. Qed.

Lemma preserves_sys_exit {A} P code : preserves P (@sys_exit A code).
Proof. by intros s. Qed.

Lemma preserves_raise {A} P e : preserves P (@raise A e).
Proof. by intros s. Qed.

Lemma preserves_bind {A B} P (m : prog A) (k : A → prog B) :
  preserves P m → (∀ a, preserves P (k a)) → preserves P (bind m k).
Proof.
  intros Hm Hk s Hs. unfold bind. specialize (Hm s Hs).
  destruct (m s) as [a s' | |]; simpl in *; [by apply Hk | done | done].
Qed.

Lemma preserves_input Q : preserves (trace_all Q) input.
Proof. intros s Hs. unfold input. by destruct (stdin s). Qed.

Lemma preserves_run Q r a : Q a = true → preserves (trace_all Q) (run r a).
Proof.
  intros Ha s Hs. unfold run. destruct (command_fails r a); [done |].
  unfold trace_all in *. simpl. apply Forall_app. split; [done |]. by constructor.
Qed.

Lemma preserves_except_exit {A} P (m : prog A) code :
  preserves P m → preserves P (except_exit m code).
Proof.
  intros Hm s Hs. specialize (Hm s Hs). unfold except_exit.
  by destruct (m s).
Qed.

Lemma preserves_int_or_raise P lib x : preserves P (int_or_raise lib x).
Proof.
  unfold int_or_raise. destruct (py_int lib x);
    [apply preserves_ret | apply preserves_raise].
Qed.

Create HintDb preserves.
#[export] Hint Resolve preserves_ret preserves_sys_exit preserves_raise
  preserves_input preserves_int_or_raise : preserves.

(** Break a composed run down to its steps. *)
Ltac preserves_steps :=
  repeat first
    [ progress auto with preserves
    | apply preserves_bind; [| intros ?]
    | apply preserves_run; reflexivity
    | match goal with
      | |- preserves _ (if ?b then _ else _) => destruct b
      | |- preserves _ (match ?x with _ => _ end) => destruct x
      | |- preserves _ (let '(_, _) := ?x in _) => destruct x
      end ].

End ProgFacts.

Module MainFacts.
Import Main ProgFacts.

Lemma preserves_prompt_identity Q n e : preserves (trace_all Q) (prompt_identity n e).
Proof. unfold prompt_identity. preserves_steps. Qed.

Lemma preserves_check_repository P r : preserves P (check_repository r).
Proof. unfold check_repository. preserves_steps. Qed.

Lemma preserves_sync_branch Q lib r :
  Q GitFetch = true → (∀ x, Q (GitMergeFfOnly x) = true) →
  preserves (trace_all Q) (sync_branch lib r).
Proof.
  intros Hf Hm. unfold sync_branch. preserves_steps.
  - by apply preserves_run.
  - apply preserves_except_exit. by apply preserves_run.
Qed.

Lemma preserves_latest_version P lib r b : preserves P (latest_version lib r b).
Proof.
  unfold latest_version.
  destruct (scan_version _ _) as [[[[g1 g2] g3] rest] |]; preserves_steps.
Qed.

Lemma preserves_resolve_identity Q r : preserves (trace_all Q) (resolve_identity r).
Proof.
  unfold resolve_identity. destruct (Identity.read_identity r) as [[n e] src].
  destruct (str_eqb _ _); [| apply preserves_ret].
  apply preserves_bind; [apply preserves_prompt_identity |].
  intros [a b]. apply preserves_ret.
Qed.

Lemma preserves_stage r : preserves (trace_all no_release) (stage r).
Proof. unfold stage. preserves_steps. Qed.

(** What [stage] does. *)
Lemma main_stage_outcome r s :
  stage r s =
  if command_fails r GitAddAll then Uncaught CalledProcessError s
  else
    let s' := {| stdin := stdin s; trace := trace s ++ [GitAddAll] |} in
    match splitlines (staged_names r) with
    | [] => Exited 0 s'
    | files => Cont files s'
    end.
Proof.
  unfold stage, bind, run. destruct (command_fails r GitAddAll); [done |].
  by destruct (splitlines (staged_names r)).
Qed.

Lemma main_before_staging_preserves Q lib r :
  Q GitFetch = true → (∀ x, Q (GitMergeFfOnly x) = true) →
  preserves (trace_all Q) (main_before_staging lib r).
Proof.
  intros Hf Hm. unfold main_before_staging.
  apply preserves_bind; [apply preserves_check_repository | intros _].
  apply preserves_bind; [by apply preserves_sync_branch | intros _].
  destruct (_ && _); [apply preserves_sys_exit |].
  apply preserves_bind; [apply preserves_latest_version | intros [[major minor] patch]].
  apply preserves_bind; [apply preserves_resolve_identity | intros i].
  apply preserves_ret.
Qed.

Lemma main_until_staged_split lib r s :
  main_until_staged lib r s =
  match main_before_staging lib r s with
  | Cont (b, v, (n, e, src)) s' =>
      match stage r s' with
      | Cont files s'' =>
          Cont {| bootstrap := b; next_version := v;
                  name := n; email := e; source := src; files := files |} s''
      | Exited code s'' => Exited code s''
      | Uncaught x s'' => Uncaught x s''
      end
  | Exited code s' => Exited code s'
  | Uncaught x s' => Uncaught x s'
  end.
Proof.
  unfold main_until_staged, bind.
  destruct (main_before_staging lib r s) as [[[b v] [[n e] src]] s' | |];
    [| done | done].
  unfold ret. by destruct (stage r s').
Qed.

(** Nothing is committed, tagged or pushed before drafting starts. *)
Lemma main_until_staged_no_release lib r :
  preserves (trace_all no_release) (main_until_staged lib r).
Proof.
  unfold main_until_staged.
  apply preserves_bind; [by apply main_before_staging_preserves |].
  intros [[b v] [[n e] src]].
  apply preserves_bind; [apply preserves_stage | intros files].
  apply preserves_ret.
Qed.

(** Once [git add .] has run with nothing staged, [main] exits with 0. *)
Lemma main_until_staged_empty lib r inputs :
  staged_names r = [] →
  GitAddAll ∈ trace (final_state (main_until_staged lib r (start inputs))) →
  ∃ s', main_until_staged lib r (start inputs) = Exited 0 s'.
Proof.
  intros Hempty. rewrite main_until_staged_split.
  assert (trace_all no_staging (start inputs)) as H0 by constructor.
  apply (main_before_staging_preserves no_staging lib r) in H0; [| done | done].
  unfold trace_all in H0. rewrite Forall_forall in H0.
  destruct (main_before_staging lib r (start inputs))
    as [[[b v] [[n e] src]] s' | code s' | x s']; simpl in *.
  - rewrite main_stage_outcome, Hempty. simpl.
    destruct (command_fails r GitAddAll); simpl; [| eauto].
    intros Hin. by apply H0 in Hin.
  - intros Hin. by apply H0 in Hin.
  - intros Hin. by apply H0 in Hin.
Qed.

(** Drafting starts with at least one staged file. *)
Lemma main_until_staged_files lib r s sess s' :
  main_until_staged lib r s = Cont sess s' →
  files sess = splitlines (staged_names r) ∧ files sess ≠ [].
Proof.
  rewrite main_until_staged_split.
  destruct (main_before_staging lib r s)
    as [[[b v] [[n e] src]] s1 | |]; [| done | done].
  rewrite main_stage_outcome. destruct (command_fails r GitAddAll); [done |].
  simpl. destruct (splitlines (staged_names r)) eqn:E; [done |].
  by intros [= <- _].
Qed.

End MainFacts.

Module ScriptFacts.
Import Script ProgFacts.

(** What [stage] does. *)
Lemma script_stage_outcome r s :
  stage r s =
  if command_fails r GitAddAll then Uncaught CalledProcessError s
  else
    let s' := {| stdin := stdin s; trace := trace s ++ [GitAddAll] |} in
    if truthy (staged_names r) then Cont (staged_names r) s' else Exited 3 s'.
Proof.
  unfold stage, bind, run. destruct (command_fails r GitAddAll); [done |].
  by destruct (truthy (staged_names r)).
Qed.

(** With nothing staged the script never gets past the staging guard. *)
Lemma script_until_staged_empty lib r s v s' :
  staged_names r = [] → script_until_staged lib r s ≠ Cont v s'.
Proof.
  intros Hempty H. unfold script_until_staged in H.
  apply bind_Cont_inv in H as ([] & s1 & _ & H).
  apply bind_Cont_inv in H as (last_tag & s2 & _ & H).
  destruct (semantic last_tag) as [[[major minor] patch] |]; [| done].
  apply bind_Cont_inv in H as (changed & s3 & H & _).
  rewrite script_stage_outcome, Hempty in H. simpl in H.
  by destruct (command_fails r GitAddAll).
Qed.

End ScriptFacts.

Module ExitFacts.
Import ProgFacts.

Lemma exits_ret {A} codes (a : A) : exits_within codes (ret a).
Proof. by intros s code s'. Qed.

Lemma exits_raise {A} codes e : exits_within codes (@raise A e).
Proof. by intros s code s'. Qed.

Lemma exits_sys_exit {A} codes code : code ∈ codes → exits_within codes (@sys_exit A code).
Proof. intros Hin s c s'. unfold sys_exit. by intros [= <- _]. Qed.

Lemma exits_input codes : exits_within codes input.
Proof. intros s code s'. unfold input. by destruct (stdin s). Qed.

Lemma exits_run codes r a : exits_within codes (run r a).
Proof. intros s code s'. unfold run. by destruct (command_fails r a). Qed.

Lemma exits_int_or_raise codes lib x : exits_within codes (int_or_raise lib x).
Proof.
  unfold int_or_raise. destruct (py_int lib x); [apply exits_ret | apply exits_raise].
Qed.

Lemma exits_except_exit {A} codes (m : prog A) code :
  code ∈ codes → exits_within codes m → exits_within codes (except_exit m code).
Proof.
  intros Hin Hm s c s'. unfold except_exit.
  destruct (m s) as [a s1 | c1 s1 | e s1] eqn:E; [done | |].
  - intros [= <- _]. by eapply Hm.
  - by intros [= <- _].
Qed.

Lemma exits_bind {A B} codes (m : prog A) (k : A → prog B) :
  exits_within codes m → (∀ a, exits_within codes (k a)) →
  exits_within codes (bind m k).
Proof.
  intros Hm Hk s code s'. unfold bind.
  destruct (m s) as [a s1 | c s1 | e s1] eqn:E; [apply Hk | | done].
  intros [= <- <-]. by eapply Hm.
Qed.

Create HintDb exits.
#[export] Hint Resolve exits_ret exits_raise exits_input exits_run
  exits_int_or_raise : exits.

Ltac exits_steps :=
  repeat first
    [ progress auto with exits
    | apply exits_sys_exit; repeat constructor
    | apply exits_bind; [| intros ?]
    | match goal with
      | |- exits_within _ (if ?b then _ else _) => destruct b
      | |- exits_within _ (match ?x with _ => _ end) => destruct x
      | |- exits_within _ (let '(_, _) := ?x in _) => destruct x
      end ].

Lemma exits_main_until_staged lib r :
  exits_within [0; 1]%Z (Main.main_until_staged lib r).
Proof.
  unfold Main.main_until_staged, Main.main_before_staging, Main.check_repository,
    Main.sync_branch, Main.latest_version, Main.resolve_identity,
    Main.prompt_identity, Main.stage.
  exits_steps.
  apply exits_except_exit; [repeat constructor | apply exits_run].
Qed.

Lemma exits_script_until_staged lib r :
  exits_within [1; 2; 3; 4]%Z (Script.script_until_staged lib r).
Proof.
  unfold Script.script_until_staged, Script.check_repository, Script.latest_tag,
    Script.ensure_identity, Script.stage.
  exits_steps.
Qed.

End ExitFacts.

(** * The claims of the specification *)

(** ** Version negotiator *)

Module NegotiatorClaims.
Import Negotiator NegotiatorFacts.

(** C1. For every non-negative triple [(major, minor, patch)] and every
    finite set [used] of tags, [next_free_version] returns
    [v{major}.{minor}.{k}] for the smallest [k > patch] whose tag is not
    in [used]: the loop returns that tag for every sufficient amount of
    fuel, and the tag reads back as [(major, minor, k)], so its major and
    minor components are those of the input. *)
Theorem next_free_version_smallest_unused (used : gset str) (major minor patch : N) :
  ∃ (k : N) (fuel0 : nat),
    patch < k
    ∧ (version_tag major minor k ∉ used)
    ∧ (∀ j, patch < j < k → version_tag major minor j ∈ used)
    ∧ (∀ fuel, (fuel0 <= fuel)%nat →
         next_free_version used fuel major minor patch
         = Some (version_tag major minor k))
    ∧ semantic (version_tag major minor k) = Some (major, minor, k).
Proof.
  destruct (next_free_version_spec used major minor (S (size used)) patch
              (free_candidate_exists used major minor patch))
    as (k & Hk & Hrange & Hfree & Hmin).
  exists k, (S (size used)). repeat split; try lia; auto.
  - intros fuel Hfuel. eapply next_free_version_fuel_mono; eauto.
  - apply ParsingFacts.semantic_version_tag.
Qed.

(** C10. The patch-increment loop of [next_free_version] terminates for
    every triple and every finite set of tags: it returns in its [n]-th
    iteration for some [n] between 1 and [size used + 1], having examined
    the strictly increasing candidates [patch+1, ..., patch+n], of which
    the first [n-1] are in the set and the [n]-th is outside it; with less
    fuel than [n] it is still running, with [n] or more it returns the
    [n]-th candidate. *)
Theorem next_free_version_terminates (used : gset str) (major minor patch : N) :
  ∃ n : nat,
    (1 <= n <= S (size used))%nat
    ∧ (∀ i : nat, (1 <= i < n)%nat →
         version_tag major minor (patch + N.of_nat i) ∈ used)
    ∧ (version_tag major minor (patch + N.of_nat n) ∉ used)
    ∧ (∀ fuel, (fuel < n)%nat →
         next_free_version used fuel major minor patch = None)
    ∧ (∀ fuel, (n <= fuel)%nat →
         next_free_version used fuel major minor patch
         = Some (version_tag major minor (patch + N.of_nat n))).
Proof.
  destruct (next_free_version_spec used major minor (S (size used)) patch
              (free_candidate_exists used major minor patch))
    as (k & Hk & Hrange & Hfree & Hmin).
  exists (N.to_nat (k - patch)).
  assert (patch + N.of_nat (N.to_nat (k - patch)) = k) as Hk' by lia.
  split; [lia |]. split; [| split; [| split]].
  - intros i Hi. apply Hmin. lia.
  - by rewrite Hk'.
  - intros fuel Hfuel. apply next_free_version_running.
    intros j Hj. apply Hmin. lia.
  - intros fuel Hfuel. rewrite Hk'.
    destruct (next_free_version_spec used major minor (N.to_nat (k - patch)) patch)
      as (k2 & Hk2 & Hrange2 & Hfree2 & Hmin2).
    { exists k. split; [lia | done]. }
    assert (k2 = k) as ->.
    { destruct (N.lt_trichotomy k2 k) as [Hlt | [-> | Hgt]]; [| done |].
      - exfalso. apply Hfree2, Hmin. lia.
      - exfalso. apply Hfree, Hmin2. lia. }
    eapply next_free_version_fuel_mono; eauto.
Qed.

End NegotiatorClaims.

(** ** Message normalizer *)

Module NormalizerClaims.
Import Normalizer StrFacts NormalizerFacts.

Lemma first_line_le_length t l :
  first_line t = Some l → (length l <= length t)%nat.
Proof.
  unfold first_line. destruct (splitlines t) as [| l' ls] eqn:E; [discriminate |].
  intros [= <-]. apply splitlines_first in E as ->. apply line_prefix_length.
Qed.

(** C2, as stated, fails: a message padded with leading spaces whose
    stripped first line fits is returned as it is, and its first line has
    81 characters against a limit of 72. *)
Lemma enforce_summary_limit_padded_exceeds :
  first_line (enforce_summary_limit (replicate 80 SPACE ++ u "a") 72)
  = Some (replicate 80 SPACE ++ u "a")
  ∧ length (replicate 80 SPACE ++ u "a") = 81%nat.
Proof. split; reflexivity. Qed.

(** The hard cut of [truncate_summary]: 100 characters without a space
    come back as 80 characters and the ellipsis. *)
Example truncate_summary_hard_cut :
  truncate_summary (replicate 100 120) 80 = replicate 80 120 ++ [ELLIPSIS].
Proof. reflexivity. Qed.

(** C2, amended. For a message without leading or trailing whitespace,
    the first line of what [enforce_summary_limit] returns has at most
    [limit] characters, and when the over-long first line has a space
    among its first [limit] characters the returned first line is the
    text before the last such space. [truncate_summary] returns at most
    [limit] characters when its stripped input fits or has a space among
    its first [limit] characters, and then, in the over-long case, it is
    the text before the last such space followed by the ellipsis. *)
Theorem normalizer_first_line_bounded (msg s : str) (limit : nat) :
  strip msg = msg →
  (∀ l, first_line (enforce_summary_limit msg limit) = Some l →
        (length l <= limit)%nat)
  ∧ (∀ l, first_line msg = Some l → (limit < length l)%nat →
          SPACE ∈ take limit l →
          ∃ w, first_line (enforce_summary_limit msg limit)
               = Some (cut_at_space l limit)
               ∧ take limit l = cut_at_space l limit ++ SPACE :: w
               ∧ SPACE ∉ w)
  ∧ (((length (strip s) <= limit)%nat ∨ SPACE ∈ take limit (strip s)) →
       (length (truncate_summary s limit) <= limit)%nat
       ∧ ∀ l, first_line (truncate_summary s limit) = Some l →
              (length l <= limit)%nat)
  ∧ ((limit < length (strip s))%nat → SPACE ∈ take limit (strip s) →
       ∃ w, truncate_summary s limit
            = cut_at_space (strip s) limit ++ [ELLIPSIS]
            ∧ take limit (strip s) = cut_at_space (strip s) limit ++ SPACE :: w
            ∧ SPACE ∉ w).
Proof.
  intros Hs. split; [| split; [| split]].
  - intros l. by apply enforce_first_line_le.
  - intros l Hl Hgt Hin. unfold first_line in Hl.
    destruct (splitlines msg) as [| l' ls] eqn:E; [discriminate |].
    injection Hl as ->. apply (enforce_cut_at_space msg limit l ls); [| done | done].
    by rewrite Hs.
  - intros Hcase.
    assert (length (truncate_summary s limit) <= limit)%nat as Hlen.
    { rewrite truncate_summary_unfold.
      destruct (Nat.leb_spec (length (strip s)) limit) as [Hle | Hgt]; [lia |].
      destruct Hcase as [Hle | Hin]; [lia |].
      pose proof (cut_at_space_length_lt _ _ Hin).
      rewrite length_app. simpl. lia. }
    split; [exact Hlen |].
    intros l Hl. apply first_line_le_length in Hl. lia.
  - intros Hgt Hin. rewrite truncate_summary_unfold.
    destruct (Nat.leb_spec (length (strip s)) limit) as [Hle | _]; [lia |].
    destruct (cut_at_space_cases (strip s) limit) as [[Hno _] | (w & Hw & Hfree)];
      [contradiction |].
    by exists w.
Qed.

Lemma normalizer_first_line_bounded_witness :
  strip (u "hello world foo") = u "hello world foo"
  ∧ (∀ l, first_line (enforce_summary_limit (u "hello world foo") 8) = Some l →
          (length l <= 8)%nat).
Proof.
  split; [reflexivity |].
  exact (proj1 (normalizer_first_line_bounded
                  (u "hello world foo") (u " hello world foo ") 8 eq_refl)).
Defined.

(** C3, as stated, fails: [truncate_summary] strips an input that already
    fits, and [enforce_summary_limit] cuts the first non-blank line of an
    input whose own first line is empty. *)
Lemma normalizer_changes_fitting_input :
  (first_line (u " a") = Some (u " a")
   ∧ truncate_summary (u " a") 80 = u "a")
  ∧ (first_line (NEWLINE :: replicate 100 120) = Some []
     ∧ enforce_summary_limit (NEWLINE :: replicate 100 120) 72 = replicate 72 120).
Proof. repeat split; reflexivity. Qed.

(** C3, amended. For every limit of at least 1 (so for 72 and for 80):
    [enforce_summary_limit] returns its input unchanged when the first
    line of the stripped input fits the limit; [truncate_summary] returns
    the stripped input when that fits the limit; and for both, normalizing
    twice equals normalizing once. *)
Theorem normalizer_idempotent (msg : str) (limit : nat) :
  (1 <= limit)%nat →
  ((∀ l, first_line (strip msg) = Some l → (length l <= limit)%nat) →
     enforce_summary_limit msg limit = msg)
  ∧ enforce_summary_limit (enforce_summary_limit msg limit) limit
    = enforce_summary_limit msg limit
  ∧ ((length (strip msg) <= limit)%nat → truncate_summary msg limit = strip msg)
  ∧ truncate_summary (truncate_summary msg limit) limit
    = truncate_summary msg limit.
Proof.
  intros Hl. split; [| split; [| split]].
  - apply enforce_summary_limit_fits.
  - by apply enforce_summary_limit_idem.
  - apply truncate_summary_fits.
  - apply truncate_summary_idem.
Qed.

Lemma normalizer_idempotent_witness :
  (1 <= 8)%nat
  ∧ enforce_summary_limit (enforce_summary_limit (u "hello world foo") 8) 8
    = enforce_summary_limit (u "hello world foo") 8.
Proof.
  assert (1 <= 8)%nat as H by (apply le_n_S, Nat.le_0_l).
  split; [exact H |].
  exact (proj1 (proj2 (normalizer_idempotent (u "hello world foo") 8 H))).
Defined.

End NormalizerClaims.

(** ** AI refinement request *)

Module RefinementClaims.
Import Samples.


(** C5, as stated, fails: [generate_message] accepts the two-character
    response ["ok"] as the new draft. *)
Lemma generate_message_accepts_short_response :
  Refinement.generate_message (answering (u "ok")) empty_repo
    (u "gpt-4o-mini") 12 (u "Update 2 project files")
  = Return (u "ok", None).
Proof. vm_compute. reflexivity. Qed.

(** C5, amended. In [gup.py] a response whose trimmed text has fewer than
    10 characters is rejected: a warning is printed and no message is
    returned. In [gup/__main__.py] a response is rejected only when its
    trimmed text is empty; the prior draft is then kept, with the trimmed
    error output, or ["AI returned empty output"], as the reason; any
    other response, however short, becomes the new draft after its first
    line is normalized. *)
Theorem short_response_handling (lib : pylib) (tool : llm) (r : repo)
    (model : str) (timeout : nat) (commit_msg diff out err : str) :
  (popen (tool model (LegacyRefinement.prompt diff)) = None →
   communicate (tool model (LegacyRefinement.prompt diff)) = Return (out, err) →
   (length (strip out) < 10)%nat →
   ∃ warnings,
     LegacyRefinement.generate_ai_commit_message lib tool model diff
     = Return (warnings ++ [LegacyRefinement.WARNING_SIGN
                            ++ u " AI returned empty or too-small output."],
               None))
  ∧ (popen (tool model
       (Refinement.prompt commit_msg (take (N.to_nat 15000) (staged_diff r)))) = None →
     Refinement.wait_with_countdown (tool model
       (Refinement.prompt commit_msg (take (N.to_nat 15000) (staged_diff r))))
       0 timeout = true →
     communicate (tool model
       (Refinement.prompt commit_msg (take (N.to_nat 15000) (staged_diff r))))
     = Return (out, err) →
     (strip out = [] →
        Refinement.generate_message tool r model timeout commit_msg
        = Return (commit_msg,
                  Some (or_else (strip err) (u "AI returned empty output"))))
     ∧ (strip out ≠ [] →
          Refinement.generate_message tool r model timeout commit_msg
          = Return (Normalizer.enforce_summary_limit (strip out) 72, None))).
Proof.
  split.
  - intros Hp Hc Hlen. unfold LegacyRefinement.generate_ai_commit_message.
    rewrite Hp, Hc. simpl.
    apply Nat.ltb_lt in Hlen. rewrite Hlen, orb_true_r. eauto.
  - intros Hp Hw Hc. unfold Refinement.generate_message.
    rewrite Hp, Hw, Hc. simpl. split.
    + by intros ->.
    + intros Hne. by destruct (strip out).
Qed.

End RefinementClaims.

(** ** Commit trailer *)

Module TrailerClaims.
Import Normalizer StrFacts TrailerFacts Samples.

Lemma final_msg_lines commit_msg next_version ts :
  NEWLINE ∉ next_version → NEWLINE ∉ ts →
  split NEWLINE (Trailer.final_msg commit_msg next_version ts)
  = split NEWLINE commit_msg
    ++ [[]; u "Version: " ++ next_version; u "Timestamp: " ++ ts; []].
Proof.
  intros Hv Ht.
  assert (Trailer.final_msg commit_msg next_version ts
          = commit_msg ++ NEWLINE :: ([] ++ NEWLINE ::
              ((u "Version: " ++ next_version) ++ NEWLINE ::
                 ((u "Timestamp: " ++ ts) ++ NEWLINE :: [])))) as ->.
  { unfold Trailer.final_msg. rewrite <- !app_assoc. reflexivity. }
  rewrite !split_app_sep. f_equal.
  rewrite (split_no_sep NEWLINE (u "Version: " ++ next_version)).
  2:{ apply not_elem_of_app. split; [by apply literal_no_newline | done]. }
  rewrite (split_no_sep NEWLINE (u "Timestamp: " ++ ts)).
  2:{ apply not_elem_of_app. split; [by apply literal_no_newline | done]. }
  reflexivity.
Qed.

Lemma legacy_final_msg_lines commit_msg title next_version ts :
  NEWLINE ∉ title → NEWLINE ∉ next_version → NEWLINE ∉ ts →
  split NEWLINE (Trailer.legacy_final_msg commit_msg title next_version ts)
  = [ u "Version: " ++ next_version ++ u " " ++ [8212] ++ u " " ++ title;
      u "Timestamp: " ++ ts; [] ]
    ++ split NEWLINE commit_msg ++ [[]].
Proof.
  intros Htitle Hv Ht.
  assert (Trailer.legacy_final_msg commit_msg title next_version ts
          = (u "Version: " ++ next_version ++ u " " ++ [8212] ++ u " " ++ title)
            ++ NEWLINE :: ((u "Timestamp: " ++ ts) ++ NEWLINE ::
                 ([] ++ NEWLINE :: (commit_msg ++ NEWLINE :: [])))) as ->.
  { unfold Trailer.legacy_final_msg. rewrite <- !app_assoc. reflexivity. }
  rewrite !split_app_sep.
  rewrite (split_no_sep NEWLINE (u "Version: " ++ _)).
  2:{ rewrite !not_elem_of_app. repeat split; try done; by apply literal_no_newline. }
  rewrite (split_no_sep NEWLINE (u "Timestamp: " ++ ts)).
  2:{ apply not_elem_of_app. split; [by apply literal_no_newline | done]. }
  reflexivity.
Qed.

(** The commands of the commit step, in order; a failing one ends the run. *)
Lemma commit_and_push_trace r name email commit_msg next_version s :
  ∃ done,
    trace (final_state (Main.commit_and_push r name email commit_msg next_version s))
    = trace s ++ done
    ∧ done `prefix_of`
        [ GitCommit name email
            (Trailer.final_msg commit_msg next_version (strftime (now r)));
          GitTag next_version
            (Trailer.final_msg commit_msg next_version (strftime (now r)));
          GitPushBranch (or_else (current_branch r) (u "main"));
          GitPushTag next_version ].
Proof.
  unfold Main.commit_and_push, bind, run.
  repeat (match goal with
          | |- context [command_fails r ?a] => destruct (command_fails r a)
          end; simpl;
          [ rewrite <- ?app_assoc; simpl;
            eexists; split; [try reflexivity; by rewrite app_nil_r |];
            eexists; reflexivity |]).
  rewrite <- !app_assoc. simpl. eexists. split; [reflexivity | done].
Qed.

(** C6, as stated, fails: the message [gup.py] commits starts with the
    version and timestamp lines and ends with the message body. *)
Lemma legacy_final_msg_ends_with_body :
  split NEWLINE
    (Trailer.legacy_final_msg (u "Fix login bug")
       (Trailer.legacy_title (u "Fix login bug")) (u "v1.2.4")
       (strftime (now empty_repo)))
  = [ u "Version: v1.2.4 " ++ [8212] ++ u " Fix login bug";
      u "Timestamp: 2024-03-09 07:05:00";
      [];
      u "Fix login bug";
      [] ].
Proof. vm_compute. reflexivity. Qed.

(** C6, amended. In [gup/__main__.py] the message of the commit and of the
    tag is the draft, an empty line, the line [Version: <tag>] and the
    line [Timestamp: <YYYY-MM-DD HH:MM:SS>], ending with a newline, and the
    commit step runs commit, tag, push of the branch and push of the tag
    in that order with that message. In [gup.py] the message starts with
    the line [Version: <tag> — <title>] and the line [Timestamp: ...],
    followed by an empty line and the message body. *)
Theorem final_message_layout (r : repo) (name email commit_msg : str)
    (major minor k : N) (s : io) :
  split NEWLINE
    (Trailer.final_msg commit_msg (Negotiator.version_tag major minor k)
       (strftime (now r)))
  = split NEWLINE commit_msg
    ++ [ [];
         u "Version: " ++ Negotiator.version_tag major minor k;
         u "Timestamp: " ++ strftime (now r);
         [] ]
  ∧ (valid_datetime (now r) = true → timestamp_shape (strftime (now r)) = true)
  ∧ (∃ done,
       trace (final_state
                (Main.commit_and_push r name email commit_msg
                   (Negotiator.version_tag major minor k) s))
       = trace s ++ done
       ∧ done `prefix_of`
           [ GitCommit name email
               (Trailer.final_msg commit_msg
                  (Negotiator.version_tag major minor k) (strftime (now r)));
             GitTag (Negotiator.version_tag major minor k)
               (Trailer.final_msg commit_msg
                  (Negotiator.version_tag major minor k) (strftime (now r)));
             GitPushBranch (or_else (current_branch r) (u "main"));
             GitPushTag (Negotiator.version_tag major minor k) ])
  ∧ split NEWLINE
      (Trailer.legacy_final_msg commit_msg (Trailer.legacy_title commit_msg)
         (Negotiator.version_tag major minor k) (strftime (now r)))
    = [ u "Version: " ++ Negotiator.version_tag major minor k
          ++ u " " ++ [8212] ++ u " " ++ Trailer.legacy_title commit_msg;
        u "Timestamp: " ++ strftime (now r);
        [] ]
      ++ split NEWLINE commit_msg ++ [[]].
Proof.
  split; [| split; [| split]].
  - apply final_msg_lines;
      [apply version_tag_no_newline | apply strftime_no_newline].
  - apply strftime_shape.
  - apply commit_and_push_trace.
  - apply legacy_final_msg_lines;
      [ apply legacy_title_no_newline | apply version_tag_no_newline
      | apply strftime_no_newline ].
Qed.

End TrailerClaims.

(** ** Identity resolver *)

Module IdentityClaims.
Import Identity.

Lemma truthy_true {A} (s : list A) : truthy s = true ↔ s ≠ [].
Proof. destruct s; simpl; split; congruence. Qed.

Lemma truthy_false {A} (s : list A) : truthy s = false ↔ s = [].
Proof. destruct s; simpl; split; congruence. Qed.

(** What the first layer of [read_identity] is asked: the value set last
    over all the files, which is the global one when nothing after the
    global file sets the key. *)
Lemma effective_global (g : git_scopes) (key v : str) :
  only_below_local g key → global_file g !! key = Some v →
  git_config g key = git_config_global g key.
Proof.
  intros (Hl & Hw & Hc) Hg. unfold git_config, git_config_global, effective.
  simpl. by rewrite Hg, Hl, Hw, Hc.
Qed.

Lemma effective_unset (g : git_scopes) (key : str) :
  only_below_local g key → global_file g !! key = None →
  system_file g !! key = None → git_config g key = [].
Proof.
  intros (Hl & Hw & Hc) Hg Hs. unfold git_config, effective.
  simpl. by rewrite Hs, Hg, Hl, Hw, Hc.
Qed.

(** C7, as the code has it. The first layer of [read_identity] asks
    [git config user.name] and [git config user.email] without a scope,
    and git answers from every file it reads. So an identity that only
    the global file sets, with a name that is not blank, is returned with
    the provenance ["repo"]: the layer labelled ["global"] is not the one
    that finds it. *)
Theorem global_identity_labelled_repo (g : git_scopes) (r : repo) (name email : str) :
  only_below_local g (u "user.name") →
  only_below_local g (u "user.email") →
  global_file g !! u "user.name" = Some name →
  global_file g !! u "user.email" = Some email →
  git_config_global g (u "user.name") ≠ [] →
  read_identity (configured g r)
  = (git_config_global g (u "user.name"), git_config_global g (u "user.email"),
     u "repo").
Proof.
  intros Hn He Hgn Hge Hne. unfold read_identity. simpl.
  rewrite (effective_global g _ name Hn Hgn), (effective_global g _ email He Hge).
  apply truthy_true in Hne. by rewrite Hne.
Qed.

(** The failing input: nothing but the global file sets the identity. *)
Lemma global_identity_labelled_repo_witness :
  read_identity (configured Samples.global_identity Samples.empty_repo)
  = (u "Ada", u "ada@example.org", u "repo").
Proof.
  apply (global_identity_labelled_repo Samples.global_identity Samples.empty_repo
           (u "Ada") (u "ada@example.org")).
  - by repeat split.
  - by repeat split.
  - by vm_compute.
  - by vm_compute.
  - by vm_compute.
Defined.

End IdentityClaims.

(** ** Change summary and staging guard *)

Module OrchestratorClaims.
Import ProgFacts Samples.

(** C8. The change summary is ["Initial commit"] for the first commit of
    the repository whatever the number of files, else ["Update project
    configuration"] when exactly one file is staged, else ["Update N
    project files"] with [N] the number of staged files; and [main] only
    computes it with at least one staged file. *)
Theorem commit_msg_rule (bootstrap : bool) (files : list str) :
  (bootstrap = true → Heuristic.commit_msg bootstrap files = u "Initial commit")
  ∧ (bootstrap = false → length files = 1%nat →
       Heuristic.commit_msg bootstrap files = u "Update project configuration")
  ∧ (bootstrap = false → length files ≠ 1%nat →
       Heuristic.commit_msg bootstrap files
       = u "Update " ++ str_of_int (N.of_nat (length files)) ++ u " project files")
  ∧ (∀ lib r s sess s',
       Main.main_until_staged lib r s = Cont sess s' → Main.files sess ≠ []).
Proof.
  unfold Heuristic.commit_msg. repeat split.
  - by intros ->.
  - by intros -> ->.
  - intros -> H. apply Nat.eqb_neq in H. by rewrite H.
  - intros lib r s sess s' H. by apply MainFacts.main_until_staged_files in H as [_ H].
Qed.

(** C9, as stated, fails: with nothing staged, [main] of
    [gup/__main__.py] exits with code 0, not 3. *)
Lemma main_exits_zero_when_nothing_staged :
  Main.main_until_staged ascii_lib empty_repo (start [])
  = Exited 0 {| stdin := []; trace := [GitAddAll] |}.
Proof. vm_compute. reflexivity. Qed.

(** C9, amended. When nothing is staged after [git add .]:
    [gup/__main__.py] exits with code 0, having run no commit, tag or
    push; [gup.py] exits with code 3 at the staging guard, which itself
    runs nothing but [git add .]; neither script goes on to draft a
    message or to commit. *)
Theorem nothing_staged_exits (lib : pylib) (r : repo) (inputs : list str) :
  staged_names r = [] →
  (∀ s, command_fails r GitAddAll = false →
        Main.stage r s
        = Exited 0 {| stdin := stdin s; trace := trace s ++ [GitAddAll] |})
  ∧ (GitAddAll ∈ trace (final_state (Main.main_until_staged lib r (start inputs))) →
     ∃ s', Main.main_until_staged lib r (start inputs) = Exited 0 s')
  ∧ Forall (fun a => releases a = false)
      (trace (final_state (Main.main_until_staged lib r (start inputs))))
  ∧ (∀ s, command_fails r GitAddAll = false →
          Script.stage r s
          = Exited 3 {| stdin := stdin s; trace := trace s ++ [GitAddAll] |})
  ∧ (∀ v s', Script.script_until_staged lib r (start inputs) ≠ Cont v s').
Proof.
  intros Hempty. repeat split.
  - intros s Hok. by rewrite MainFacts.main_stage_outcome, Hok, Hempty.
  - by apply MainFacts.main_until_staged_empty.
  - assert (trace_all no_release (start inputs)) as H0 by constructor.
    apply (MainFacts.main_until_staged_no_release lib r) in H0.
    unfold trace_all in H0. eapply Forall_impl; [exact H0 |].
    intros a. unfold no_release. by destruct (releases a).
  - intros s Hok. by rewrite ScriptFacts.script_stage_outcome, Hok, Hempty.
  - intros v s'. by apply ScriptFacts.script_until_staged_empty.
Qed.

Lemma nothing_staged_exits_witness :
  staged_names empty_repo = []
  ∧ Script.stage empty_repo (start [])
    = Exited 3 {| stdin := []; trace := [GitAddAll] |}.
Proof.
  split; [reflexivity |].
  exact (proj1 (proj2 (proj2 (proj2
           (nothing_staged_exits ascii_lib empty_repo [] eq_refl))))
         (start []) eq_refl).
Defined.

End OrchestratorClaims.

(** ** Further properties of the scripts *)

Module ExtraClaims.
Import Samples Normalizer StrFacts NormalizerFacts LinesFacts.

Lemma wait_with_countdown_iff p remaining : ∀ elapsed,
  Refinement.wait_with_countdown p elapsed remaining = true
  ↔ ∃ i, (elapsed <= i < elapsed + remaining)%nat ∧ poll p i = true.
Proof.
  induction remaining as [| n IH]; intros elapsed; simpl.
  - split; [done | intros (i & Hi & _); lia].
  - destruct (poll p elapsed) eqn:E.
    + split; [| done]. intros _. exists elapsed. split; [lia | done].
    + rewrite IH. split; intros (i & Hi & Hp); exists i; (split; [| done]).
      * lia.
      * destruct (decide (i = elapsed)) as [-> | Hne]; [congruence | lia].
Qed.

(** The scenario of [tests/test_versioning.py]: with the tags [v1.2.3]
    and [v1.2.4] in use, [next_free_version(1, 2, 3)] is [v1.2.5]; the
    loop needs two iterations. *)
Theorem test_next_free_version (fuel : nat) :
  Negotiator.next_free_version {[ u "v1.2.3"; u "v1.2.4" ]} (2 + fuel) 1 2 3
  = Some (u "v1.2.5").
Proof.
  change (2 + fuel)%nat with (S (S fuel)).
  unfold Negotiator.next_free_version.
  assert (Negotiator.tag_exists {[u "v1.2.3"; u "v1.2.4"]}
            (Negotiator.version_tag 1 2 (3 + 1)) = true) as ->
    by (vm_compute; reflexivity).
  assert (Negotiator.tag_exists {[u "v1.2.3"; u "v1.2.4"]}
            (Negotiator.version_tag 1 2 (3 + 1 + 1)) = false) as ->
    by (vm_compute; reflexivity).
  reflexivity.
Qed.

(** [wait_with_countdown] reports completion exactly when one of the
    [timeout] polls, one per second, finds that the subprocess has exited. *)
Theorem wait_with_countdown_spec (p : llm_run) (timeout : nat) :
  Refinement.wait_with_countdown p 0 timeout = true
  ↔ ∃ i, (i < timeout)%nat ∧ poll p i = true.
Proof.
  rewrite wait_with_countdown_iff. split; intros (i & Hi & Hp); exists i;
    (split; [lia | done]).
Qed.

(** When the subprocess does not exit within the timeout, the request is
    killed and [generate_message] keeps the prior draft, with the reason
    ["AI request timed out"]. *)
Theorem timed_out_request_keeps_draft (tool : llm) (r : repo)
    (model : str) (timeout : nat) (commit_msg : str) :
  popen (tool model
    (Refinement.prompt commit_msg (take (N.to_nat 15000) (staged_diff r)))) = None →
  (∀ i, (i < timeout)%nat →
     poll (tool model
       (Refinement.prompt commit_msg (take (N.to_nat 15000) (staged_diff r)))) i = false) →
  kill (tool model
    (Refinement.prompt commit_msg (take (N.to_nat 15000) (staged_diff r)))) = None →
  Refinement.generate_message tool r model timeout commit_msg
  = Return (commit_msg, Some (u "AI request timed out")).
Proof.
  intros Hp Hpoll Hk. unfold Refinement.generate_message.
  rewrite Hp. simpl.
  destruct (Refinement.wait_with_countdown _ 0 timeout) eqn:E.
  - apply wait_with_countdown_spec in E as (i & Hi & Hi').
    rewrite Hpoll in Hi' by done. discriminate.
  - simpl. by rewrite Hk.
Qed.

Lemma timed_out_request_keeps_draft_witness :
  Refinement.generate_message hanging empty_repo (u "gpt-4o-mini") 12
    (u "Update 2 project files")
  = Return (u "Update 2 project files", Some (u "AI request timed out")).
Proof.
  exact (timed_out_request_keeps_draft hanging empty_repo (u "gpt-4o-mini") 12
           (u "Update 2 project files") eq_refl (fun _ _ => eq_refl) eq_refl).
Defined.

(** Up to the staging guard, [gup/__main__.py] exits only with code 0 or
    1, and [gup.py] only with code 1, 2, 3 or 4. *)
Theorem exit_codes_until_staged (lib : pylib) (r : repo) (s : io) :
  (∀ code s', Main.main_until_staged lib r s = Exited code s' →
              code = 0%Z ∨ code = 1%Z)
  ∧ (∀ code s', Script.script_until_staged lib r s = Exited code s' →
                code = 1%Z ∨ code = 2%Z ∨ code = 3%Z ∨ code = 4%Z).
Proof.
  split; intros code s' H.
  - apply ExitFacts.exits_main_until_staged in H.
    repeat (apply elem_of_cons in H as [H | H]; [auto |]).
    by apply elem_of_nil in H.
  - apply ExitFacts.exits_script_until_staged in H.
    repeat (apply elem_of_cons in H as [H | H]; [auto 6 |]).
    by apply elem_of_nil in H.
Qed.

(** For a limit of at least 1 and an over-long first line,
    [enforce_summary_limit] returns, read as lines, the cut first line
    followed by the other lines of the stripped message, unchanged. *)
Theorem enforce_summary_limit_keeps_other_lines (msg : str) (limit : nat)
    (s : str) (ls : list str) :
  (1 <= limit)%nat →
  splitlines (strip msg) = s :: ls →
  (limit < length s)%nat →
  splitlines (Normalizer.enforce_summary_limit msg limit)
  = Normalizer.cut_at_space s limit :: ls.
Proof.
  intros Hl E Hgt. rewrite enforce_summary_limit_unfold, E.
  destruct (Nat.leb_spec (length s) limit) as [Hle | _]; [lia |].
  pose proof (splitlines_no_linebreak (strip msg)) as Hall.
  pose proof (splitlines_strip_last msg) as Hlast.
  rewrite E in Hall, Hlast. apply Forall_cons in Hall as [Hs Hls].
  destruct (first_line_strip _ _ _ E) as (c & t & -> & Hc & _).
  destruct (cut_at_space_head c t limit Hc Hl) as [t' Ht'].
  apply splitlines_join.
  - constructor; [by apply cut_at_space_no_linebreak | done].
  - rewrite Ht'. destruct ls as [| l2 ls']; [done |]. exact Hlast.
Qed.

Lemma enforce_summary_limit_keeps_other_lines_witness :
  splitlines (Normalizer.enforce_summary_limit
                (u "hello world foo" ++ [13; 10] ++ u "body") 8)
  = [u "hello"; u "body"].
Proof.
  apply (enforce_summary_limit_keeps_other_lines
           (u "hello world foo" ++ [13; 10] ++ u "body") 8
           (u "hello world foo") [u "body"]).
  - apply le_n_S, Nat.le_0_l.
  - reflexivity.
  - unfold lt. simpl. repeat apply le_n_S. apply Nat.le_0_l.
Defined.

End ExtraClaims.

(** * Further coverage of the two scripts *)

(** ** Parsing and negotiating versions *)

Module VersionCoverage.
Import Negotiator NegotiatorFacts ParsingFacts.

Lemma span_spec (p : N → bool) s : ∀ a b,
  span p s = (a, b) →
  s = a ++ b
  ∧ Forall (fun c => p c = true) a
  ∧ match b with [] => True | c :: _ => p c = false end.
Proof.
  induction s as [| c s IH]; intros a b; simpl.
  - intros [= <- <-]. split; [done |]. split; [constructor | done].
  - destruct (p c) eqn:Hc.
    + destruct (span p s) as [a' b'] eqn:E. intros [= <- <-].
      destruct (IH a' b' eq_refl) as (-> & Ha & Hb).
      split; [done |]. split; [by constructor | done].
    + intros [= <- <-]. split; [done |]. split; [constructor | done].
Qed.

(** What a successful scan has read. *)
Lemma scan_version_inv (p : N → bool) s g1 g2 g3 rest :
  scan_version p s = Some (g1, g2, g3, rest) →
  s = 118 :: g1 ++ 46 :: g2 ++ 46 :: g3 ++ rest
  ∧ (Forall (fun c => p c = true) g1 ∧ g1 ≠ [])
  ∧ (Forall (fun c => p c = true) g2 ∧ g2 ≠ [])
  ∧ (Forall (fun c => p c = true) g3 ∧ g3 ≠ [])
  ∧ match rest with [] => True | c :: _ => p c = false end.
Proof.
  unfold scan_version. destruct s as [| c r0]; [done |].
  destruct (N.eqb_spec c 118) as [-> | _]; [| done].
  destruct (span p r0) as [a1 r1] eqn:E1.
  destruct a1 as [| x1 a1]; [done |]. destruct r1 as [| d1 r1]; [done |].
  destruct (N.eqb_spec d1 46) as [-> | _]; [| done].
  destruct (span p r1) as [a2 r2] eqn:E2.
  destruct a2 as [| x2 a2]; [done |]. destruct r2 as [| d2 r2]; [done |].
  destruct (N.eqb_spec d2 46) as [-> | _]; [| done].
  destruct (span p r2) as [a3 r3] eqn:E3.
  destruct a3 as [| x3 a3]; [done |].
  intros [= <- <- <- <-].
  apply span_spec in E1 as (-> & H1 & _).
  apply span_spec in E2 as (-> & H2 & _).
  apply span_spec in E3 as (-> & H3 & H4).
  repeat split; try done; by rewrite <- !app_assoc.
Qed.

(** [semantic] of [gup.py] accepts exactly the tags [v<digits>.<digits>.<digits>],
    optionally followed by one newline, and returns the three numbers
    their digit groups denote (leading zeros allowed). *)
Theorem semantic_accepts (tag : str) (major minor patch : N) :
  semantic tag = Some (major, minor, patch)
  ↔ ∃ g1 g2 g3 nl,
      tag = u "v" ++ g1 ++ u "." ++ g2 ++ u "." ++ g3 ++ nl
      ∧ (nl = [] ∨ nl = [NEWLINE])
      ∧ digit_group g1 ∧ digit_group g2 ∧ digit_group g3
      ∧ major = int_ascii g1 ∧ minor = int_ascii g2 ∧ patch = int_ascii g3.
Proof.
  unfold semantic, digit_group. split.
  - destruct (scan_version is_ascii_digit tag) as [[[[g1 g2] g3] rest] |] eqn:E;
      [| done].
    apply scan_version_inv in E as (-> & H1 & H2 & H3 & _).
    unfold str_eqb. repeat case_bool_decide; simpl; try done;
      intros [= <- <- <-]; exists g1, g2, g3, rest; subst rest; repeat split;
      try tauto; auto.
  - intros (g1 & g2 & g3 & nl & -> & Hnl & [N1 H1] & [N2 H2] & [N3 H3] & -> & -> & ->).
    change (u "v" ++ ?x) with (118 :: x).
    change (u "." ++ ?x) with (46 :: x).
    change (u "." ++ ?x) with (46 :: x).
    rewrite scan_version_groups; try done.
    + destruct Hnl as [-> | ->]; reflexivity.
    + destruct Hnl as [-> | ->]; [done | reflexivity].
Qed.

(** A result of the loop, whatever the fuel, is the first free candidate. *)
Lemma next_free_version_sound used major minor fuel : ∀ patch t,
  next_free_version used fuel major minor patch = Some t →
  ∃ k, t = version_tag major minor k ∧ patch < k
       ∧ (t ∉ used)
       ∧ (∀ j, patch < j < k → version_tag major minor j ∈ used).
Proof.
  induction fuel as [| fuel IH]; intros patch t; [done |]. simpl.
  destruct (tag_exists used (version_tag major minor (patch + 1))) eqn:E; simpl.
  - intros H. apply IH in H as (k & -> & Hk & Hfree & Hmin).
    exists k. repeat split; [lia | done |].
    intros j Hj. destruct (decide (j = patch + 1)) as [-> | Hne].
    + by apply tag_exists_true in E.
    + apply Hmin. lia.
  - intros [= <-]. exists (patch + 1). repeat split; [lia | | intros j Hj; lia].
    by apply tag_exists_false in E.
Qed.

(** The more tags are in use, the later the version [next_free_version]
    returns; once the tag it returned is in use, it returns a strictly
    later one. *)
Theorem next_free_version_monotone (used used' : gset str)
    (major minor patch : N) (fuel fuel' : nat) (t t' : str) :
  used ⊆ used' →
  next_free_version used fuel major minor patch = Some t →
  next_free_version used' fuel' major minor patch = Some t' →
  ∃ k k', t = version_tag major minor k ∧ t' = version_tag major minor k'
          ∧ k <= k' ∧ (t ∈ used' → k < k').
Proof.
  intros Hsub H H'.
  apply next_free_version_sound in H as (k & -> & Hk & Hfree & Hmin).
  apply next_free_version_sound in H' as (k' & -> & Hk' & Hfree' & Hmin').
  exists k, k'. split; [done |]. split; [done |].
  assert (k <= k') as Hle.
  { destruct (N.le_gt_cases k k') as [Hle | Hgt]; [done |].
    exfalso. apply Hfree', Hsub, Hmin. lia. }
  split; [done |]. intros Hin.
  destruct (decide (k = k')) as [<- | Hne]; [contradiction | lia].
Qed.

Lemma next_free_version_monotone_witness :
  ∃ k k', u "v1.2.4" = version_tag 1 2 k ∧ u "v1.2.5" = version_tag 1 2 k'
          ∧ k <= k' ∧ (u "v1.2.4" ∈ ({[ u "v1.2.3"; u "v1.2.4" ]} : gset str) → k < k').
Proof.
  apply (next_free_version_monotone {[ u "v1.2.3" ]} {[ u "v1.2.3"; u "v1.2.4" ]}
           1 2 3 1 2).
  - apply union_subseteq_l.
  - vm_compute. reflexivity.
  - vm_compute. reflexivity.
Defined.

End VersionCoverage.

(** ** Summaries, identities and accepted messages *)

Lemma truthy_nonempty {A} (s : list A) : truthy s = true → s ≠ [].
Proof. by destruct s. Qed.

Module MessageCoverage.
Import Normalizer StrFacts NormalizerFacts ProgFacts.

(** [truncate_summary] returns the stripped input when it fits; otherwise
    it returns a proper prefix of the stripped input, of at most [limit]
    characters, followed by the ellipsis. *)
Theorem truncate_summary_shape (s : str) (limit : nat) :
  ((length (strip s) <= limit)%nat ∧ truncate_summary s limit = strip s)
  ∨ ((limit < length (strip s))%nat
     ∧ ∃ p w, truncate_summary s limit = p ++ [ELLIPSIS]
              ∧ strip s = p ++ w ∧ w ≠ [] ∧ (length p <= limit)%nat).
Proof.
  rewrite truncate_summary_unfold.
  destruct (Nat.leb_spec (length (strip s)) limit) as [Hle | Hgt]; [by left |].
  right. split; [done |].
  destruct (cut_at_space_prefix (strip s) limit) as [w Hw].
  pose proof (cut_at_space_length (strip s) limit) as Hlen.
  exists (cut_at_space (strip s) limit), w. repeat split; try done.
  intros ->. rewrite app_nil_r in Hw. rewrite <- Hw in Hlen. lia.
Qed.

(** The ways [ensure_identity] ends. *)
Lemma ensure_identity_cases (lib : pylib) (r : repo) (s : io) :
  (∀ n e s', Script.ensure_identity lib r s = Cont (n, e) s' →
     n ≠ [] ∧ e ≠ []
     ∧ (trace s' = trace s
        ∨ trace s' = trace s ++
            [ Shell (Script.config_command (u "user.name") n);
              Shell (Script.config_command (u "user.email") e) ]))
  ∧ (∀ code s', Script.ensure_identity lib r s = Exited code s' →
       code = 4%Z ∧ trace s' = trace s).
Proof.
  unfold Script.ensure_identity.
  destruct (truthy (global_user_name r)) eqn:Hn;
    destruct (truthy (global_user_email r)) eqn:He; simpl.
  1:{ split; [| done]. intros n e s' [= <- <- <-].
      apply truthy_nonempty in Hn, He. auto. }
  all: unfold bind, input; destruct (stdin s) as [| a [| b rest]]; try done;
    simpl;
    destruct (truthy (strip a)) eqn:Ha; destruct (truthy (strip b)) eqn:Hb; simpl;
    try (split; [done |]; by intros code s' [= <- <-]);
    (destruct rest as [| c rest]; [done |]); simpl;
    apply truthy_nonempty in Ha, Hb;
    (destruct (str_eqb _ _); unfold run; simpl;
     [ destruct (command_fails r _); [done |]; simpl;
       destruct (command_fails r _); [done |]; simpl;
       split; [| done]; intros n e s' [= <- <- <-]; simpl;
       rewrite <- app_assoc; auto
     | split; [| done]; intros n e s' [= <- <- <-]; auto ]).
Qed.

(** [ensure_identity] of [gup.py] hands back a complete identity or none:
    when it returns, name and e-mail are both non-empty; it exits only
    with code 4, before any command has run; and the only commands it
    runs are the two command lines [git config --global user.name "NAME"]
    and [git config --global user.email "EMAIL"], handed to the shell
    with the returned name and e-mail between the double quotes as they
    were typed. *)
Theorem ensure_identity_complete (lib : pylib) (r : repo) (s : io) :
  (∀ n e s', Script.ensure_identity lib r s = Cont (n, e) s' →
     n ≠ [] ∧ e ≠ []
     ∧ (trace s' = trace s
        ∨ trace s' = trace s ++
            [ Shell (Script.config_command (u "user.name") n);
              Shell (Script.config_command (u "user.email") e) ]))
  ∧ (∀ code s', Script.ensure_identity lib r s = Exited code s' →
       code = 4%Z ∧ trace s' = trace s).
Proof. apply ensure_identity_cases. Qed.

(** A message [generate_ai_commit_message] of [gup.py] returns is the
    stripped output of the tool, has at least 10 characters, and comes
    from an output without either refusal phrase. *)
Theorem generate_ai_commit_message_accepted (lib : pylib) (tool : llm)
    (model diff : str) (warnings : list str) (m : str) :
  LegacyRefinement.generate_ai_commit_message lib tool model diff
  = Return (warnings, Some m) →
  ∃ out err,
    communicate (tool model (LegacyRefinement.prompt diff)) = Return (out, err)
    ∧ m = strip out ∧ strip m = m ∧ (10 <= length m)%nat
    ∧ contains (u "what would you like me to") (py_lower lib out) = false
    ∧ contains (u "please provide me") (py_lower lib out) = false.
Proof.
  unfold LegacyRefinement.generate_ai_commit_message.
  set (p := tool model _).
  destruct (popen p) as [e |]; simpl.
  { by destruct (is_timeout e). }
  destruct (communicate p) as [[out err] | e]; simpl;
    [| by destruct (is_timeout e)].
  destruct (negb (truthy out) || _) eqn:Hshort; [done |].
  destruct (contains _ _ || contains _ _) eqn:Hrefuse; [done |].
  intros [= <- <-]. exists out, err.
  apply orb_false_iff in Hshort as [_ Hlen], Hrefuse as [H1 H2].
  apply Nat.ltb_ge in Hlen. by rewrite strip_idem.
Qed.

Lemma generate_ai_commit_message_accepted_witness :
  ∃ out err,
    communicate (Samples.answering (u "Fix login redirect") (u "gpt-4o-mini")
                   (LegacyRefinement.prompt (u "+ return next_url")))
    = Return (out, err)
    ∧ u "Fix login redirect" = strip out
    ∧ strip (u "Fix login redirect") = u "Fix login redirect"
    ∧ (10 <= length (u "Fix login redirect"))%nat
    ∧ contains (u "what would you like me to")
        (py_lower Samples.ascii_lib out) = false
    ∧ contains (u "please provide me") (py_lower Samples.ascii_lib out) = false.
Proof.
  apply (generate_ai_commit_message_accepted Samples.ascii_lib
           (Samples.answering (u "Fix login redirect")) (u "gpt-4o-mini")
           (u "+ return next_url") []).
  vm_compute. reflexivity.
Defined.

(** The result of [enforce_summary_limit] on a non-blank message is not
    empty, for a limit of at least 1. *)
Lemma enforce_summary_limit_nonempty msg limit :
  (1 <= limit)%nat → strip msg ≠ [] → enforce_summary_limit msg limit ≠ [].
Proof.
  intros Hl Hne. rewrite enforce_summary_limit_unfold.
  destruct (splitlines (strip msg)) as [| s ls] eqn:E.
  - intros ->. by apply Hne.
  - destruct (length s <=? limit)%nat; [intros ->; by apply Hne |].
    destruct (first_line_strip _ _ _ E) as (c & t & -> & Hc & _).
    destruct (cut_at_space_head c t limit Hc Hl) as [t' Ht'].
    rewrite join_cons, Ht'. done.
Qed.

(** A message [generate_message] accepts from the tool (no warning) is
    not empty and its first line has at most 72 characters. *)
Theorem generate_message_accepted (tool : llm) (r : repo) (model : str)
    (timeout : nat) (commit_msg text : str) :
  Refinement.generate_message tool r model timeout commit_msg
  = Return (text, None) →
  text ≠ [] ∧ ∀ l, first_line text = Some l → (length l <= 72)%nat.
Proof.
  unfold Refinement.generate_message. set (p := tool model _).
  destruct (popen p) as [e |]; simpl; [done |].
  destruct (Refinement.wait_with_countdown p 0 timeout); simpl.
  - destruct (communicate p) as [[out err] | e]; simpl; [| done].
    destruct (truthy (strip out)) eqn:Hout; [| done].
    intros [= <-]. apply truthy_nonempty in Hout. split.
    + apply enforce_summary_limit_nonempty; [lia | by rewrite strip_idem].
    + intros l. apply enforce_first_line_le, strip_idem.
  - by destruct (kill p).
Qed.

Lemma generate_message_accepted_witness :
  u "ok" ≠ [] ∧ ∀ l, first_line (u "ok") = Some l → (length l <= 72)%nat.
Proof.
  apply (generate_message_accepted (Samples.answering (u "ok")) Samples.empty_repo
           (u "gpt-4o-mini") 12 (u "Update 2 project files")).
  vm_compute. reflexivity.
Defined.

End MessageCoverage.

(** ** Listing and picking models *)

Module ModelCoverage.
Import Models StrFacts TrailerFacts ProgFacts.

Lemma is_printable_no_space_iff s :
  is_printable_no_space s = true
  ↔ s ≠ [] ∧ Forall (fun c => 33 <= c <= 126) s.
Proof.
  unfold is_printable_no_space.
  rewrite andb_true_iff, IdentityClaims.truthy_true, forallb_forall, Forall_forall.
  split; intros [Hne Hall]; (split; [done |]); intros c Hc.
  - apply list_elem_of_In, Hall in Hc. revert Hc.
    unfold in_printable, is_space.
    rewrite andb_true_iff, negb_true_iff, !orb_true_iff, !orb_false_iff,
      !andb_true_iff, !andb_false_iff, !N.leb_le, !N.leb_gt, !N.eqb_neq. lia.
  - apply list_elem_of_In, Hall in Hc.
    unfold in_printable, is_space.
    rewrite andb_true_iff, negb_true_iff, !orb_true_iff, !orb_false_iff,
      !andb_true_iff, !andb_false_iff, !N.leb_le, !N.leb_gt, !N.eqb_neq. lia.
Qed.

Lemma split_once_hd_no_sep c s : c ∉ hd [] (split_once c s).
Proof.
  induction s as [| x s IH]; simpl; [apply not_elem_of_nil |].
  destruct (N.eqb_spec x c) as [-> | Hne]; simpl; [apply not_elem_of_nil |].
  destruct (split_once c s) as [| l ls]; simpl in *.
  - apply not_elem_of_cons. split; [congruence | apply not_elem_of_nil].
  - apply not_elem_of_cons. split; [congruence | done].
Qed.

Lemma split_no_sep_in c s l : l ∈ split c s → c ∉ l.
Proof.
  revert l. induction s as [| x s IH]; simpl; intros l Hl.
  - apply list_elem_of_singleton in Hl as ->. apply not_elem_of_nil.
  - destruct (N.eqb_spec x c) as [-> | Hne].
    + apply elem_of_cons in Hl as [-> | Hl]; [apply not_elem_of_nil | by apply IH].
    + pose proof (split_nonempty c s).
      destruct (split c s) as [| l' ls]; [done |].
      apply elem_of_cons in Hl as [-> | Hl].
      * apply not_elem_of_cons. split; [congruence |]. apply IH. by left.
      * apply IH. by right.
Qed.

Lemma split_elem c s l x : l ∈ split c s → x ∈ l → x ∈ s.
Proof.
  revert l. induction s as [| y s IH]; simpl; intros l Hl Hx.
  - apply list_elem_of_singleton in Hl as ->. by apply elem_of_nil in Hx.
  - destruct (y =? c).
    + apply elem_of_cons in Hl as [-> | Hl]; [by apply elem_of_nil in Hx |].
      right. by apply (IH l).
    + pose proof (split_nonempty c s).
      destruct (split c s) as [| l' ls]; [done |].
      apply elem_of_cons in Hl as [-> | Hl].
      * apply elem_of_cons in Hx as [-> | Hx]; [by left |].
        right. apply (IH l'); [by left | done].
      * right. apply (IH l); [by right | done].
Qed.

Lemma split_last_elem c s x : x ∈ default [] (last (split c s)) → x ∈ s.
Proof.
  destruct (last (split c s)) as [l |] eqn:E; simpl; [| by intros ?%elem_of_nil].
  apply last_Some in E as [l' E]. apply (split_elem c s l).
  rewrite E. apply elem_of_app. right. by left.
Qed.

Lemma split_last_no_sep c s : c ∉ default [] (last (split c s)).
Proof.
  destruct (last (split c s)) as [l |] eqn:E; simpl; [| apply not_elem_of_nil].
  apply (split_no_sep_in c s). apply last_Some in E as [l' ->].
  apply elem_of_app. right. by left.
Qed.

Lemma ends_with_false c s : ends_with c s = false → last s ≠ Some c.
Proof.
  unfold ends_with. destruct (last s) as [x |]; [| done].
  intros H [= ->]. by rewrite N.eqb_refl in H.
Qed.

(** The entries one line of the output contributes. *)
Lemma parse_model_line_spec line m :
  m ∈ parse_model_line line →
  model_label m = strip line
  ∧ model_label m ≠ [] ∧ last (model_label m) ≠ Some 58
  ∧ is_printable_no_space (model_id m) = true
  ∧ (58 ∉ model_id m) ∧ (40 ∉ model_id m).
Proof.
  unfold parse_model_line.
  destruct (truthy (strip line)) eqn:Hline; simpl; [| by intros ?%elem_of_nil].
  destruct (ends_with 58 (strip line)) eqn:Hend; [by intros ?%elem_of_nil |].
  destruct (is_printable_no_space _) eqn:Hid; [| by intros ?%elem_of_nil].
  intros ->%list_elem_of_singleton. simpl.
  repeat split; try done.
  - by apply IdentityClaims.truthy_true.
  - by apply ends_with_false.
  - intros H%strip_elem. by apply split_last_no_sep in H.
  - intros H%strip_elem%split_last_elem%strip_elem.
    by apply split_once_hd_no_sep in H.
Qed.

(** Every entry [list_llm_models] returns has a usable identifier: it is
    not empty, consists of printable ASCII characters other than
    whitespace, and contains neither a colon nor an opening parenthesis;
    its label is a stripped, non-empty line of the output that does not
    end with a colon. *)
Theorem list_llm_models_entries (out : str) (m : model) :
  m ∈ list_llm_models out →
  (model_id m ≠ [] ∧ Forall (fun c => 33 <= c <= 126) (model_id m))
  ∧ (58 ∉ model_id m) ∧ (40 ∉ model_id m)
  ∧ (∃ line, line ∈ splitlines out ∧ model_label m = strip line)
  ∧ model_label m ≠ [] ∧ last (model_label m) ≠ Some 58.
Proof.
  unfold list_llm_models. intros H.
  apply list_elem_of_In, in_flat_map in H as (line & Hline & Hm).
  apply list_elem_of_In in Hline, Hm.
  apply parse_model_line_spec in Hm as (Hl & Hne & Hend & Hid & H58 & H40).
  apply is_printable_no_space_iff in Hid. repeat split; try tauto.
  by exists line.
Qed.

Lemma list_llm_models_entries_witness :
  (u "gpt-4o-mini" ≠ [] ∧ Forall (fun c => 33 <= c <= 126) (u "gpt-4o-mini"))
  ∧ (58 ∉ u "gpt-4o-mini") ∧ (40 ∉ u "gpt-4o-mini")
  ∧ (∃ line, line ∈ splitlines (u "OpenAI Chat: gpt-4o-mini (aliases: 4o-mini)")
             ∧ u "OpenAI Chat: gpt-4o-mini (aliases: 4o-mini)" = strip line)
  ∧ u "OpenAI Chat: gpt-4o-mini (aliases: 4o-mini)" ≠ []
  ∧ last (u "OpenAI Chat: gpt-4o-mini (aliases: 4o-mini)") ≠ Some 58.
Proof.
  apply (list_llm_models_entries (u "OpenAI Chat: gpt-4o-mini (aliases: 4o-mini)")
           {| model_id := u "gpt-4o-mini";
              model_label := u "OpenAI Chat: gpt-4o-mini (aliases: 4o-mini)" |}).
  vm_compute. left.
Defined.

(** [clamp_timeout], with its default ["12"], always returns the decimal
    rendering of a number of seconds between 1 and 60, which reads back
    as that number. *)
Theorem clamp_timeout_range (int_of : str → option Z) (val : str) :
  ∃ n, 1 <= n <= 60
       ∧ clamp_timeout int_of val (u "12") = str_of_int n
       ∧ int_ascii (clamp_timeout int_of val (u "12")) = n.
Proof.
  unfold clamp_timeout. destruct (int_of val) as [t |].
  - exists (Z.to_N (Z.min 60 (Z.max 1 t))). split; [lia |].
    split; [done | apply ParsingFacts.int_ascii_str_of_int].
  - exists 12. split; [lia |]. split; reflexivity.
Qed.

(** Clamping is idempotent, given that [int] reads the decimal rendering
    of a number back. *)
Theorem clamp_timeout_idempotent (int_of : str → option Z) (val : str) :
  (∀ n, 1 <= n <= 60 → int_of (str_of_int n) = Some (Z.of_N n)) →
  clamp_timeout int_of (clamp_timeout int_of val (u "12")) (u "12")
  = clamp_timeout int_of val (u "12").
Proof.
  intros Hint. unfold clamp_timeout.
  destruct (int_of val) as [t |].
  - rewrite Hint by lia. f_equal. lia.
  - change (u "12") with (str_of_int 12) at 1.
    rewrite Hint by lia. reflexivity.
Qed.

Lemma clamp_timeout_idempotent_witness :
  clamp_timeout (fun s => Some (Z.of_N (int_ascii s)))
    (clamp_timeout (fun s => Some (Z.of_N (int_ascii s))) (u "90") (u "12"))
    (u "12")
  = clamp_timeout (fun s => Some (Z.of_N (int_ascii s))) (u "90") (u "12").
Proof.
  apply (clamp_timeout_idempotent (fun s => Some (Z.of_N (int_ascii s)))).
  intros n _. by rewrite ParsingFacts.int_ascii_str_of_int.
Defined.

End ModelCoverage.

(** ** The review loop and the whole of [main] *)

Module ReviewCoverage.
Import Models Review ProgFacts ExitFacts.

(** *** Steps that leave the trace alone *)

Lemma preserves_index_or_raise {A} P (l : list A) i : preserves P (index_or_raise l i).
Proof.
  unfold index_or_raise. destruct (py_index l i);
    [apply preserves_ret | apply preserves_raise].
Qed.

Lemma preserves_int_z_or_raise P int_of x : preserves P (int_z_or_raise int_of x).
Proof.
  unfold int_z_or_raise. destruct (int_of x);
    [apply preserves_ret | apply preserves_raise].
Qed.

Lemma preserves_pick_model Q lib int_of models :
  preserves (trace_all Q) (pick_model lib int_of models).
Proof.
  unfold pick_model.
  repeat first
    [ apply preserves_index_or_raise | apply preserves_int_z_or_raise
    | apply preserves_input
    | apply preserves_bind; [| intros ?]
    | match goal with |- preserves _ (if ?b then _ else _) => destruct b end ].
Qed.

Lemma preserves_read_all Q : preserves (trace_all Q) read_all.
Proof. by intros s Hs. Qed.

Lemma preserves_generate P tools r d : preserves P (generate tools r d).
Proof.
  intros s Hs. unfold generate.
  by destruct (Refinement.generate_message _ _ _ _ _) as [[msg w] | e].
Qed.

Section Trace.
Context (Q : action → bool).
Hypothesis Q_config : ∀ g k v, Q (GitConfigSet g k v) = true.

Lemma preserves_git_config_set r k v : preserves (trace_all Q) (git_config_set r k v).
Proof. apply preserves_run, Q_config. Qed.

Lemma preserves_select_model lib int_of r cfg models :
  preserves (trace_all Q) (select_model lib int_of r cfg models).
Proof.
  unfold select_model. destruct (find _ _); [apply preserves_ret |].
  apply preserves_bind; [apply preserves_pick_model | intros m].
  apply preserves_bind; [apply preserves_git_config_set | intros _].
  apply preserves_ret.
Qed.

Lemma preserves_edit_identity r d : preserves (trace_all Q) (edit_identity r d).
Proof.
  unfold edit_identity.
  apply preserves_bind; [apply MainFacts.preserves_prompt_identity | intros [n e]].
  apply preserves_bind; [apply preserves_git_config_set | intros _].
  apply preserves_bind; [apply preserves_git_config_set | intros _].
  apply preserves_ret.
Qed.

Lemma preserves_edit_message d : preserves (trace_all Q) (edit_message d).
Proof.
  unfold edit_message.
  apply preserves_bind; [apply preserves_read_all | intros text].
  apply preserves_ret.
Qed.

Lemma preserves_change_model lib int_of tools r models d :
  preserves (trace_all Q) (change_model lib int_of tools r models d).
Proof.
  unfold change_model.
  apply preserves_bind; [apply preserves_pick_model | intros m].
  apply preserves_bind; [apply preserves_git_config_set | intros _].
  apply preserves_bind; [apply preserves_input | intros answer].
  apply preserves_bind; [apply preserves_git_config_set | intros _].
  apply preserves_generate.
Qed.

Lemma preserves_review fuel lib int_of tools r models : ∀ d,
  preserves (trace_all Q) (review fuel lib int_of tools r models d).
Proof.
  induction fuel as [| fuel IH]; intros d; simpl; [apply preserves_ret |].
  apply preserves_bind; [apply preserves_input | intros c].
  destruct (str_eqb (strip c) (u "1")); [apply preserves_ret |].
  apply preserves_bind.
  { destruct (str_eqb _ _); [apply preserves_edit_identity | apply preserves_ret]. }
  intros d1. apply preserves_bind.
  { destruct (str_eqb _ _); [apply preserves_edit_message | apply preserves_ret]. }
  intros d2. apply preserves_bind.
  { destruct (str_eqb _ _); [apply preserves_change_model | apply preserves_ret]. }
  intros d3. apply preserves_bind.
  { destruct (str_eqb _ _); [apply preserves_sys_exit | apply preserves_ret]. }
  intros _. apply IH.
Qed.

End Trace.

Lemma no_release_config g k v : no_release (GitConfigSet g k v) = true.
Proof. reflexivity. Qed.

(** Nothing is committed, tagged or pushed while the message is drafted and
    reviewed. *)
Lemma main_until_reviewed_no_release lib int_of tools cfg r :
  preserves (trace_all no_release) (main_until_reviewed lib int_of tools cfg r).
Proof.
  unfold main_until_reviewed.
  apply preserves_bind; [apply MainFacts.main_until_staged_no_release | intros sess].
  apply preserves_bind;
    [apply preserves_select_model, no_release_config | intros m].
  apply preserves_bind; [apply preserves_generate | intros d].
  apply preserves_bind.
  { intros s Hs. by apply (preserves_review no_release no_release_config). }
  intros [d' |]; [| apply preserves_ret].
  destruct (Main.next_version sess); apply preserves_ret.
Qed.

(** *** Exits *)

Lemma exits_index_or_raise {A} codes (l : list A) i : exits_within codes (index_or_raise l i).
Proof.
  unfold index_or_raise. destruct (py_index l i); [apply exits_ret | apply exits_raise].
Qed.

Lemma exits_int_z_or_raise codes int_of x : exits_within codes (int_z_or_raise int_of x).
Proof.
  unfold int_z_or_raise. destruct (int_of x); [apply exits_ret | apply exits_raise].
Qed.

Lemma exits_read_all codes : exits_within codes read_all.
Proof. by intros s code s'. Qed.

Lemma exits_generate codes tools r d : exits_within codes (generate tools r d).
Proof.
  intros s code s'. unfold generate.
  by destruct (Refinement.generate_message _ _ _ _ _) as [[msg w] | e].
Qed.

#[local] Hint Resolve exits_index_or_raise exits_int_z_or_raise exits_read_all
  exits_generate : exits.

Lemma exits_pick_model codes lib int_of models :
  exits_within codes (pick_model lib int_of models).
Proof. unfold pick_model. exits_steps. Qed.

#[local] Hint Resolve exits_pick_model : exits.

Lemma exits_select_model codes lib int_of r cfg models :
  exits_within codes (select_model lib int_of r cfg models).
Proof. unfold select_model, git_config_set. exits_steps. Qed.

Lemma exits_review fuel lib int_of tools r models : ∀ d,
  exits_within [0; 1]%Z (review fuel lib int_of tools r models d).
Proof.
  induction fuel as [| fuel IH]; intros d; simpl; [apply exits_ret |].
  unfold edit_identity, edit_message, change_model, git_config_set,
    Main.prompt_identity.
  exits_steps.
Qed.

Lemma exits_main_until_reviewed lib int_of tools cfg r :
  exits_within [0; 1]%Z (main_until_reviewed lib int_of tools cfg r).
Proof.
  unfold main_until_reviewed.
  apply exits_bind; [apply exits_main_until_staged | intros sess].
  apply exits_bind; [apply exits_select_model | intros m].
  apply exits_bind; [apply exits_generate | intros d].
  apply exits_bind; [intros s; apply exits_review | intros res].
  exits_steps.
Qed.

(** *** Model selection *)

Lemma py_index_elem {A} (l : list A) i a : py_index l i = Some a → a ∈ l.
Proof.
  unfold py_index. destruct (0 <=? i)%Z.
  - apply list_elem_of_lookup_2.
  - destruct (_ <=? _)%Z; [apply list_elem_of_lookup_2 | done].
Qed.

Lemma picked_index models s s' i :
  trace s' = trace s → (length (stdin s') < length (stdin s))%nat →
  picked models s (index_or_raise models i s').
Proof.
  intros Ht Hl. unfold index_or_raise.
  destruct (py_index models i) as [m |] eqn:E; simpl; [| by auto].
  split; [by eapply py_index_elem | done].
Qed.

Lemma pick_model_picked lib int_of models s :
  picked models s (pick_model lib int_of models s).
Proof.
  unfold pick_model, bind, input.
  destruct s as [[| c rest] tr]; simpl; [by auto |].
  destruct (str_eqb (strip c) (u "3")).
  - destruct rest as [| sel rest]; simpl; [by auto |].
    unfold int_z_or_raise. destruct (int_of (strip sel)); simpl; [| by auto].
    apply picked_index; simpl; [done | lia].
  - destruct (py_isdigit lib (strip c)); [| apply picked_index; simpl; [done | lia]].
    unfold int_z_or_raise. destruct (int_of (strip c)); simpl; [| by auto].
    destruct (_ || _); apply picked_index; simpl; (done || lia).
Qed.

(** *** What the steps of the review return *)

Lemma on_return_bind {A B} (m : prog A) (k : A → prog B) s
    (R1 : A → io → Prop) (R2 : B → io → Prop) :
  on_return m s R1 → (∀ a s', R1 a s' → on_return (k a) s' R2) →
  on_return (bind m k) s R2.
Proof.
  unfold on_return, bind. intros Hm Hk.
  destruct (m s) as [a s' | |]; [by apply Hk | done | done].
Qed.

Lemma on_return_ret {A} (a : A) s (R : A → io → Prop) : R a s → on_return (ret a) s R.
Proof. done. Qed.

Lemma on_return_weaken {A} (m : prog A) s (R R' : A → io → Prop) :
  on_return m s R → (∀ a s', R a s' → R' a s') → on_return m s R'.
Proof. unfold on_return. destruct (m s); auto. Qed.

Lemma on_return_inv {A} (m : prog A) s (R : A → io → Prop) a s' :
  on_return m s R → m s = Cont a s' → R a s'.
Proof. unfold on_return. intros H E. by rewrite E in H. Qed.

Abbreviation shorter s' s := (length (stdin s') < length (stdin s))%nat.
Abbreviation no_longer s' s := (length (stdin s') <= length (stdin s))%nat.

Lemma input_returns s : on_return input s (fun _ s' => shorter s' s).
Proof. unfold on_return, input. destruct (stdin s); simpl; [done | lia]. Qed.

Lemma run_returns r a s : on_return (run r a) s (fun _ s' => stdin s' = stdin s).
Proof. unfold on_return, run. by destruct (command_fails r a). Qed.

Lemma pick_model_returns lib int_of models s :
  on_return (pick_model lib int_of models) s
    (fun m s' => m ∈ models ∧ shorter s' s).
Proof.
  pose proof (pick_model_picked lib int_of models s) as H.
  unfold on_return. destruct (pick_model lib int_of models s); [| done | done].
  simpl in H. tauto.
Qed.

Lemma clamp_timeout_decimal int_of val :
  ∃ n, 1 <= n <= 60 ∧ clamp_timeout int_of val (u "12") = str_of_int n.
Proof.
  unfold clamp_timeout. destruct (int_of val) as [t |].
  - exists (Z.to_N (Z.min 60 (Z.max 1 t))). split; [lia | done].
  - by exists 12.
Qed.

Section Steps.
Context (lib : pylib) (int_of : str → option Z) (tools : nat → llm)
  (r : repo) (models : list model).

Lemma generate_returns d s :
  on_return (generate tools r d) s
    (fun d' s' => s' = s ∧ chosen d' = chosen d ∧ timeout d' = timeout d).
Proof.
  unfold on_return, generate.
  by destruct (Refinement.generate_message _ _ _ _ _) as [[msg w] | e].
Qed.

Lemma edit_identity_returns d s :
  well_formed models d →
  on_return (edit_identity r d) s
    (fun d' s' => well_formed models d' ∧ no_longer s' s).
Proof.
  intros Hd. unfold edit_identity, Main.prompt_identity.
  apply (on_return_bind _ _ _ (fun _ s' => shorter s' s)).
  { eapply on_return_bind; [apply input_returns |]. intros a s1 H1.
    eapply on_return_bind; [apply input_returns |]. intros b s2 H2.
    apply on_return_ret. simpl in *. lia. }
  intros [n e] s1 H1. simpl in H1.
  eapply on_return_bind; [apply run_returns |]. intros [] s2 H2. simpl in H2.
  eapply on_return_bind; [apply run_returns |]. intros [] s3 H3. simpl in H3.
  apply on_return_ret. split; [exact Hd | rewrite H3, H2; lia].
Qed.

Lemma edit_message_returns d s :
  well_formed models d →
  on_return (edit_message d) s
    (fun d' s' => well_formed models d' ∧ no_longer s' s).
Proof.
  intros Hd. unfold on_return, edit_message, bind, read_all, ret. simpl.
  split; [exact Hd | lia].
Qed.

Lemma change_model_returns d s :
  on_return (change_model lib int_of tools r models d) s
    (fun d' s' => well_formed models d' ∧ no_longer s' s).
Proof.
  unfold change_model.
  eapply on_return_bind; [apply pick_model_returns |]. intros m s1 [Hm H1].
  eapply on_return_bind; [apply run_returns |]. intros [] s2 H2. simpl in H2.
  eapply on_return_bind; [apply input_returns |]. intros answer s3 H3. simpl in H3.
  eapply on_return_bind; [apply run_returns |]. intros [] s4 H4. simpl in H4.
  eapply on_return_weaken; [apply generate_returns |].
  intros d' s' (-> & Hc & Ht). simpl in *. split.
  - split; [by rewrite Hc |]. rewrite Ht. apply clamp_timeout_decimal.
  - rewrite H4. rewrite H2 in H3. lia.
Qed.

(** The loop keeps the draft well formed, and it runs out of fuel only
    when it was given less than one unit per line of input. *)
Lemma review_returns fuel : ∀ d s,
  well_formed models d →
  on_return (review fuel lib int_of tools r models d) s
    (fun res s' => match res with
                   | Some d' => well_formed models d'
                   | None => (fuel <= length (stdin s))%nat
                   end).
Proof.
  induction fuel as [| fuel IH]; intros d s Hd; simpl.
  { apply on_return_ret. lia. }
  eapply on_return_bind; [apply input_returns |]. intros c s1 H1. simpl in H1.
  destruct (str_eqb (strip c) (u "1")); [by apply on_return_ret |].
  eapply on_return_bind.
  { instantiate (1 := fun d' s' => well_formed models d' ∧ no_longer s' s1).
    destruct (str_eqb _ _); [by apply edit_identity_returns |].
    apply on_return_ret. split; [done | lia]. }
  intros d1 s2 [Hd1 H2].
  eapply on_return_bind.
  { instantiate (1 := fun d' s' => well_formed models d' ∧ no_longer s' s2).
    destruct (str_eqb _ _); [by apply edit_message_returns |].
    apply on_return_ret. split; [done | lia]. }
  intros d2 s3 [Hd2 H3].
  eapply on_return_bind.
  { instantiate (1 := fun d' s' => well_formed models d' ∧ no_longer s' s3).
    destruct (str_eqb _ _); [by apply change_model_returns |].
    apply on_return_ret. split; [done | lia]. }
  intros d3 s4 [Hd3 H4].
  eapply on_return_bind.
  { instantiate (1 := fun _ s' => s' = s4).
    by destruct (str_eqb _ _). }
  intros [] s5 ->.
  eapply on_return_weaken; [by apply IH |].
  intros [d' |] s'; [done |]. simpl. lia.
Qed.

End Steps.

(** *** The whole of [main] *)

Section Whole.
Context (lib : pylib) (int_of : str → option Z) (tools : nat → llm)
  (cfg : tooling) (r : repo).

(** The version [main] computes before staging is an unused tag. *)
Lemma main_until_staged_version s sess s' :
  Main.main_until_staged lib r s = Cont sess s' →
  ∃ v, Main.next_version sess = Some v ∧ v ∉ tags r.
Proof.
  rewrite MainFacts.main_until_staged_split.
  destruct (Main.main_before_staging lib r s)
    as [[[b v] [[n e] src]] s1 | |] eqn:E; [| done | done].
  destruct (Main.stage r s1) as [files s2 | |]; [| done | done].
  intros [= <- <-]. simpl.
  unfold Main.main_before_staging in E.
  apply bind_Cont_inv in E as ([] & s3 & _ & E).
  apply bind_Cont_inv in E as ([] & s4 & _ & E).
  destruct (_ && _); [done |].
  apply bind_Cont_inv in E as ([[major minor] patch] & s5 & _ & E).
  apply bind_Cont_inv in E as (i & s6 & _ & E).
  unfold ret in E. injection E as Hb Hv Hi Hs. rewrite <- Hv.
  destruct (NegotiatorFacts.next_free_version_spec (tags r) major minor
              (S (size (tags r))) patch) as (k & Hk & _ & Hfree & _).
  { apply NegotiatorFacts.free_candidate_exists. }
  by eexists.
Qed.

Lemma select_model_returns models s :
  on_return (select_model lib int_of r cfg models) s
    (fun m s' => m ∈ models ∧ no_longer s' s).
Proof.
  unfold select_model. destruct (find _ models) as [m |] eqn:E.
  - apply on_return_ret. split; [| lia].
    apply find_some in E as [E _]. by apply list_elem_of_In.
  - eapply on_return_bind; [apply pick_model_returns |]. intros m s1 [Hm H1].
    eapply on_return_bind; [apply run_returns |]. intros [] s2 H2. simpl in H2.
    apply on_return_ret. split; [done | rewrite H2; lia].
Qed.

(** When the review is left for the commit step, the draft is well formed
    and the version is an unused tag. *)
Lemma main_until_reviewed_returns s :
  on_return (main_until_reviewed lib int_of tools cfg r) s
    (fun res _ =>
       ∃ d v, res = Some (d, v)
              ∧ well_formed (list_llm_models (llm_models_output cfg)) d
              ∧ v ∉ tags r).
Proof.
  unfold main_until_reviewed.
  apply (on_return_bind _ _ _
           (fun sess _ => ∃ v, Main.next_version sess = Some v ∧ v ∉ tags r)).
  { unfold on_return.
    destruct (Main.main_until_staged lib r s) eqn:E; [| done | done].
    by eapply main_until_staged_version. }
  intros sess s1 (v & Hv & Hfree).
  eapply on_return_bind; [apply select_model_returns |]. intros m s2 [Hm _].
  apply (on_return_bind _ _ _
           (fun d _ => well_formed (list_llm_models (llm_models_output cfg)) d)).
  { eapply on_return_weaken; [apply generate_returns |].
    intros d s' (_ & Hc & Ht). simpl in *. split; [by rewrite Hc |].
    rewrite Ht. apply clamp_timeout_decimal. }
  intros d s3 Hd.
  eapply on_return_bind; [by apply review_returns |].
  intros [d' |] s4 Hres; simpl in Hres; [| lia].
  rewrite Hv. apply on_return_ret. by exists d', v.
Qed.

Lemma commit_and_push_returns n e msg v s s' :
  Main.commit_and_push r n e msg v s = Cont tt s' →
  trace s' = trace s ++
    [ GitCommit n e (Trailer.final_msg msg v (strftime (now r)));
      GitTag v (Trailer.final_msg msg v (strftime (now r)));
      GitPushBranch (or_else (current_branch r) (u "main"));
      GitPushTag v ].
Proof.
  unfold Main.commit_and_push, bind, run.
  repeat (destruct (command_fails r _); [done |]). simpl.
  intros [= <-]. simpl. by rewrite <- !app_assoc.
Qed.

Lemma exits_commit_and_push codes n e msg v :
  exits_within codes (Main.commit_and_push r n e msg v).
Proof. unfold Main.commit_and_push. exits_steps. Qed.

End Whole.

(** [pick_model] returns one of the listed models or raises [EOFError],
    [ValueError] or [IndexError]; it never exits and runs no command. With
    an empty list it can only raise. *)
Theorem pick_model_outcome lib int_of (models : list model) (s : io) :
  match pick_model lib int_of models s with
  | Cont m s' => m ∈ models ∧ trace s' = trace s
  | Exited _ _ => False
  | Uncaught e s' =>
      (e = EOFError ∨ e = ValueError ∨ e = IndexError) ∧ trace s' = trace s
  end.
Proof.
  pose proof (pick_model_picked lib int_of models s) as H.
  destruct (pick_model lib int_of models s); simpl in H; tauto.
Qed.


Section Runs.
Context (lib : pylib) (int_of : str → option Z) (tools : nat → llm)
  (cfg : tooling) (r : repo).





(** When [llm models] lists no usable model and none is configured, no
    run of [main] returns, and none commits, tags or pushes anything: past
    the staging step the selection of a model raises. *)
Theorem main_without_models (inputs : list str) :
  list_llm_models (llm_models_output cfg) = [] →
  (∀ res s', main lib int_of tools cfg r (start inputs) ≠ Cont res s')
  ∧ trace_all no_release
      (final_state (main lib int_of tools cfg r (start inputs))).
Proof.
  intros Hnone.
  assert (on_return (main_until_reviewed lib int_of tools cfg r) (start inputs)
            (fun _ _ => False)) as H.
  { unfold main_until_reviewed. rewrite Hnone.
    apply (on_return_bind _ _ _ (fun _ _ => True)).
    { unfold on_return. by destruct (Main.main_until_staged _ _ _). }
    intros sess s1 _.
    eapply on_return_bind; [apply select_model_returns |].
    intros m s2 [Hm _]. by apply elem_of_nil in Hm. }
  pose proof (main_until_reviewed_no_release lib int_of tools cfg r (start inputs)) as Hp.
  unfold main, bind, on_return in *.
  destruct (main_until_reviewed lib int_of tools cfg r (start inputs));
    [done | |]; (split; [done | apply Hp; constructor]).
Qed.

End Runs.




Lemma main_without_models_witness :
  (∀ res s',
     main Samples.ascii_lib Samples.ascii_int (fun _ => Samples.hanging)
       {| llm_models_output := []; gup_model := []; gup_timeout := [] |}
       Samples.working_repo (start [u "1"]) ≠ Cont res s')
  ∧ trace_all no_release
      (final_state
         (main Samples.ascii_lib Samples.ascii_int (fun _ => Samples.hanging)
            {| llm_models_output := []; gup_model := []; gup_timeout := [] |}
            Samples.working_repo (start [u "1"]))).
Proof.
  apply (main_without_models Samples.ascii_lib Samples.ascii_int
           (fun _ => Samples.hanging)
           {| llm_models_output := []; gup_model := []; gup_timeout := [] |}
           Samples.working_repo [u "1"]).
  reflexivity.
Defined.

End ReviewCoverage.

(** ** The rest of [gup.py] *)

Module ScriptCoverage.
Import ScriptRun StrFacts ProgFacts ExitFacts.

Lemma or_else_stripped a b :
  strip a = a → strip b = b → b ≠ [] →
  or_else a b ≠ [] ∧ strip (or_else a b) = or_else a b.
Proof.
  intros Ha Hb Hne. unfold or_else. destruct (truthy a) eqn:E; [| done].
  split; [by apply truthy_nonempty | done].
Qed.

(** What [ai_call] returns is a stripped message of ten characters or
    more, or nothing; it leaves the state alone. *)
Lemma ai_call_returns lib tool model diff s res s' :
  ai_call lib tool model diff s = Cont res s' →
  s' = s ∧ ∀ m, res = Some m → strip m = m ∧ (10 <= length m)%nat.
Proof.
  unfold ai_call, LegacyRefinement.generate_ai_commit_message.
  set (p := tool model _).
  destruct (popen p) as [e |]; simpl.
  { by destruct (is_timeout e); intros [= <- <-]. }
  destruct (communicate p) as [[out err] | e]; simpl;
    [| by destruct (is_timeout e); intros [= <- <-]].
  destruct (negb (truthy out) || _) eqn:Hshort; [by intros [= <- <-] |].
  destruct (contains _ _ || contains _ _); intros [= <- <-]; [done |].
  split; [done |]. intros m [= <-].
  apply orb_false_iff in Hshort as [_ Hlen]. apply Nat.ltb_ge in Hlen.
  by rewrite strip_idem.
Qed.

Lemma exits_ai_call codes lib tool model diff :
  exits_within codes (ai_call lib tool model diff).
Proof.
  intros s code s'. unfold ai_call.
  by destruct (LegacyRefinement.generate_ai_commit_message _ _ _ _) as [[w m] | e].
Qed.

(** The model and the commit message [gup.py] settles on are never empty
    and carry no surrounding whitespace, whether they come from the user,
    from the tool, from the retry or from the fallbacks; settling on them
    runs no command. *)
Theorem draft_nonempty lib (tools : nat → llm) (r : repo) (s : io) :
  ∀ model msg s',
    draft lib tools r s = Cont (model, msg) s' →
    (model ≠ [] ∧ strip model = model)
    ∧ (msg ≠ [] ∧ strip msg = msg)
    ∧ trace s' = trace s.
Proof.
  intros model msg s' E. unfold draft in E.
  apply bind_Cont_inv in E as (answer & s1 & E1 & E).
  assert (trace s1 = trace s) as Ht1.
  { unfold input in E1. destruct (stdin s); [done |]. by injection E1 as _ <-. }
  apply bind_Cont_inv in E as (m1 & s2 & E2 & E).
  apply ai_call_returns in E2 as [-> H1].
  apply bind_Cont_inv in E as (m2 & s3 & E3 & E).
  assert (s3 = s1 ∧ ∀ m, m2 = Some m → strip m = m ∧ (10 <= length m)%nat)
    as [-> H2].
  { destruct m1 as [m |].
    - injection E3 as <- <-. by split.
    - by apply ai_call_returns in E3. }
  apply bind_Cont_inv in E as (m3 & s4 & E4 & E).
  injection E as <- <- <-.
  assert ((m3 ≠ [] ∧ strip m3 = m3) ∧ trace s4 = trace s1) as [Hm Ht4].
  { destruct m2 as [m |].
    - injection E4 as <- <-. destruct (H2 m eq_refl) as [Hs Hl].
      repeat split; [| done]. intros ->. simpl in Hl. lia.
    - apply bind_Cont_inv in E4 as (typed & s5 & E5 & E4).
      injection E4 as <- <-. split.
      + apply or_else_stripped; [apply strip_idem | done | done].
      + unfold input in E5. destruct (stdin s1); [done |]. by injection E5 as _ <-. }
  split; [| split; [done | congruence]].
  destruct (truthy (strip answer)) eqn:Ha.
  - split; [by apply truthy_nonempty | apply strip_idem].
  - done.
Qed.

Lemma draft_nonempty_witness :
  (u "gpt-4o-mini" ≠ [] ∧ strip (u "gpt-4o-mini") = u "gpt-4o-mini")
  ∧ (u "Fix login redirect" ≠ []
     ∧ strip (u "Fix login redirect") = u "Fix login redirect")
  ∧ trace (final_state
             (draft Samples.ascii_lib
                (fun _ => Samples.answering (u "Fix login redirect"))
                Samples.working_repo (start [[]])))
    = trace (start [[]]).
Proof.
  apply (draft_nonempty Samples.ascii_lib
           (fun _ => Samples.answering (u "Fix login redirect"))
           Samples.working_repo (start [[]])).
  vm_compute. reflexivity.
Defined.

(** The diff handed to the tool is the staged diff when that has at most
    18000 characters, and otherwise its first 18000 characters followed by
    a marker of 21 characters. *)
Theorem truncated_diff_bounded (r : repo) :
  (length (truncated_diff r) <= N.to_nat 18021)%nat
  ∧ take (N.to_nat 18000) (truncated_diff r) = take (N.to_nat 18000) (staged_diff r)
  ∧ ((length (staged_diff r) <= N.to_nat 18000)%nat → truncated_diff r = staged_diff r)
  ∧ ((N.to_nat 18000 < length (staged_diff r))%nat →
     length (truncated_diff r) = N.to_nat 18021).
Proof.
  unfold truncated_diff.
  set (marker := [NEWLINE] ++ u "..." ++ [NEWLINE] ++ u "[diff truncated]").
  assert (length marker = 21%nat) as Hmarker by reflexivity.
  clearbody marker.
  destruct (Nat.ltb_spec (N.to_nat 18000) (length (staged_diff r))) as [Hlt | Hle].
  - assert (length (take (N.to_nat 18000) (staged_diff r) ++ marker)
            = N.to_nat 18021) as Hlen.
    { rewrite length_app, length_take, Hmarker. lia. }
    repeat split.
    + lia.
    + rewrite take_app_le by (rewrite length_take; lia).
      by rewrite take_take, Nat.min_id.
    + lia.
    + done.
  - repeat split; (done || lia).
Qed.

(** The tag the script takes for the latest one. *)
Lemma latest_tag_returns lib r s t s' :
  Script.latest_tag lib r s = Cont t s' →
  t = if has_commits r then or_else (described_tag r) (u "v0.1.0") else u "v0.1.0".
Proof.
  unfold Script.latest_tag. destruct (has_commits r); simpl.
  - unfold or_else. destruct (truthy (described_tag r)); simpl.
    + by intros [= <- _].
    + intros E.
      apply bind_Cont_inv in E as ([] & s1 & _ & E).
      apply bind_Cont_inv in E as ([] & s2 & _ & E).
      by injection E as <- _.
  - intros E.
    apply bind_Cont_inv in E as ([n e] & s1 & _ & E).
    do 5 (apply bind_Cont_inv in E as ([] & ? & _ & E)).
    by injection E as <- _.
Qed.

(** [gup.py] exits only with the codes 1 to 4. A run that returns ends
    with four commands: the commit, as an argument vector, for an author
    whose name and e-mail are not empty; the command line of the tag and
    the command line of the push of the branch, both handed to the shell;
    and the push of the tag. The version is the latest tag ([v0.1.0] when
    the script has just created it) with its patch number raised by one,
    and the message of the commit is the one interpolated into the
    command line of the tag. *)
Theorem script_outcome lib (tools : nat → llm) (r : repo) (s : io) :
  (∀ code s', script lib tools r s = Exited code s' → code ∈ [1; 2; 3; 4]%Z)
  ∧ (∀ s', script lib tools r s = Cont tt s' →
       ∃ pre n e msg major minor patch,
         semantic (if has_commits r
                   then or_else (described_tag r) (u "v0.1.0")
                   else u "v0.1.0")
         = Some (major, minor, patch)
         ∧ trace s' = pre ++
             [ GitCommit n e
                 (Trailer.legacy_final_msg msg (Trailer.legacy_title msg)
                    (Negotiator.version_tag major minor (patch + 1))
                    (strftime (now r)));
               Shell (Script.tag_command
                        (Negotiator.version_tag major minor (patch + 1))
                        (Trailer.legacy_final_msg msg (Trailer.legacy_title msg)
                           (Negotiator.version_tag major minor (patch + 1))
                           (strftime (now r))));
               Shell (Script.push_command (or_else (head_ref r) (u "main")));
               GitPushTag (Negotiator.version_tag major minor (patch + 1)) ]
         ∧ n ≠ [] ∧ e ≠ []).
Proof.
  split.
  - intros code s'. revert s code s'.
    change (exits_within [1; 2; 3; 4]%Z (script lib tools r)).
    unfold script. apply exits_bind; [apply exits_script_until_staged | intros staged].
    apply exits_bind.
    { unfold draft. pose proof exits_ai_call. exits_steps. }
    intros drafted. unfold Script.commit_and_push, Script.ensure_identity.
    exits_steps.
  - intros s' E. unfold script in E.
    apply bind_Cont_inv in E as ([v changed] & s1 & E1 & E).
    apply bind_Cont_inv in E as ([model msg] & s2 & _ & E).
    simpl in E.
    assert (∃ major minor patch,
              semantic (if has_commits r
                        then or_else (described_tag r) (u "v0.1.0")
                        else u "v0.1.0") = Some (major, minor, patch)
              ∧ v = Negotiator.version_tag major minor (patch + 1))
      as (major & minor & patch & Hsem & ->).
    { unfold Script.script_until_staged in E1.
      apply bind_Cont_inv in E1 as ([] & s3 & _ & E1).
      apply bind_Cont_inv in E1 as (last_tag & s4 & Htag & E1).
      apply latest_tag_returns in Htag as <-.
      destruct (semantic last_tag) as [[[major minor] patch] |]; [| done].
      apply bind_Cont_inv in E1 as (c & s5 & _ & E1).
      injection E1 as <- _ _. by exists major, minor, patch. }
    unfold Script.commit_and_push in E.
    apply bind_Cont_inv in E as ([n e] & s3 & E3 & E).
    assert (n ≠ [] ∧ e ≠ []) as [Hn He].
    { destruct (MessageCoverage.ensure_identity_cases lib r s2) as [H _].
      apply H in E3. tauto. }
    unfold bind, run in E.
    repeat (destruct (command_fails r _); [done |]). simpl in E.
    injection E as <-. simpl.
    exists (trace s3), n, e, msg, major, minor, patch.
    rewrite <- !app_assoc. simpl. by repeat split.
Qed.

End ScriptCoverage.

(** ** Synchronisation and identity in [main] *)

Module MainCoverage.
Import Main ProgFacts.

(** [main] goes on past the synchronisation of the branch in three ways
    only: without any command when there is no branch or no upstream;
    after [git fetch] alone when the count of missing commits is not a
    number or is zero; after [git fetch] and a fast-forward merge that
    succeeded. A branch known to be behind is never carried on with as it
    is. *)
Theorem sync_branch_outcome (lib : pylib) (r : repo) (s s' : io) :
  sync_branch lib r s = Cont tt s' →
  (trace s' = trace s ∧ (current_branch r = [] ∨ upstream r = []))
  ∨ (trace s' = trace s ++ [GitFetch]
     ∧ (py_isdigit lib (behind r) = false ∨ py_int lib (behind r) = Some 0))
  ∨ (trace s' = trace s ++ [GitFetch; GitMergeFfOnly (upstream r)]
     ∧ ∃ n, py_int lib (behind r) = Some n ∧ 0 < n).
Proof.
  unfold sync_branch.
  destruct (truthy (current_branch r)) eqn:Hb; simpl.
  2:{ intros [= <-]. left. split; [done |]. left. by destruct (current_branch r). }
  destruct (truthy (upstream r)) eqn:Hu; simpl.
  2:{ intros [= <-]. left. split; [done |]. right. by destruct (upstream r). }
  unfold bind at 1. unfold run at 1.
  destruct (command_fails r GitFetch); [done |].
  destruct (py_isdigit lib (behind r)) eqn:Hd.
  2:{ intros [= <-]. right. left. simpl. auto. }
  unfold int_or_raise. destruct (py_int lib (behind r)) as [n |] eqn:Hn; [| done].
  unfold bind at 1. unfold ret at 1.
  destruct (N.ltb_spec 0 n) as [Hpos | Hzero].
  2:{ intros [= <-]. right. left. simpl. split; [done |]. right. f_equal. lia. }
  unfold bind, input. simpl.
  destruct (stdin s) as [| c rest]; [done |].
  destruct (str_eqb _ _); [| done].
  unfold except_exit, run. simpl.
  destruct (command_fails r _); [done |].
  intros [= <-]. right. right. simpl. rewrite <- app_assoc. split; [done |].
  by exists n.
Qed.

Lemma sync_branch_outcome_witness :
  (trace (start []) = trace (start [])
   ∧ (current_branch Samples.working_repo = [] ∨ upstream Samples.working_repo = []))
  ∨ (trace (start []) = trace (start []) ++ [GitFetch]
     ∧ (py_isdigit Samples.ascii_lib (behind Samples.working_repo) = false
        ∨ py_int Samples.ascii_lib (behind Samples.working_repo) = Some 0))
  ∨ (trace (start []) = trace (start []) ++
       [GitFetch; GitMergeFfOnly (upstream Samples.working_repo)]
     ∧ ∃ n, py_int Samples.ascii_lib (behind Samples.working_repo) = Some n ∧ 0 < n).
Proof.
  apply (sync_branch_outcome Samples.ascii_lib Samples.working_repo (start []) (start [])).
  reflexivity.
Defined.



End MainCoverage.
